(** * Transitionable: a shallow embedding of src/core/Transitionable.js

    The embedding follows the JavaScript source function by function.
    A Transitionable instance is a record with the fields the constructor
    creates; the module-level registry [transitionMethods], the deferred
    queue [dirtyQueue], the wall clock read by the engines and the trace of
    calls made to the ticker and to the event output are gathered in a
    [World].  Functions that may throw return a [result].

    Numbers are carried around by the Transitionable and never computed
    with, so they are represented by integers.

    Scope of the model.  One instance lives in the world.  The callbacks of
    the caller and the subscribers of the events are opaque: calling or
    notifying them is recorded in the trace, and they do not call back into
    the instance.  The registry [transitionMethods] is a plain object: it
    is modelled by the finite map of its own properties together with the
    members it inherits from [Object.prototype]. *)

From stdpp Require Import base option list strings gmap.
From Stdlib Require Import ZArith Lia.

Open Scope Z_scope.

(** ** Values *)

(** The states a Transitionable holds: a number, an array of numbers, or an
    object with numeric properties. *)
Inductive value : Type :=
  | VNum (n : Z)
  | VArr (xs : list Z)
  | VObj (kv : list (string * Z)).

Global Instance value_eq_dec : EqDecision value.
Proof. solve_decision. Defined.

Fixpoint own_property (key : string) (kv : list (string * Z)) : option Z :=
  match kv with
  | [] => None
  | (k, n) :: rest => if decide (k = key) then Some n else own_property key rest
  end.

(** [endValue.length]: the number of elements of an array, the own property
    of that name of an object, [undefined] otherwise. *)
Definition js_length (v : value) : option Z :=
  match v with
  | VNum _ => None
  | VArr xs => Some (Z.of_nat (length xs))
  | VObj kv => own_property "length" kv
  end.

(** A transition spec [{duration, curve, velocity}].  A curve is represented
    by the property key it converts to when it indexes the registry. *)
Record transition : Type := Transition {
  duration : Z;
  curve : option string;
  t_velocity : option value
}.

Global Instance transition_eq_dec : EqDecision transition.
Proof. solve_decision. Defined.

(** Truthiness of a curve identifier: the empty string is falsy. *)
Definition curve_truthy (c : string) : bool := bool_decide (c ≠ "").

(** ** Activity state *)

Inductive STATE : Type := NONE | START | UPDATE | END.

Global Instance STATE_eq_dec : EqDecision STATE.
Proof. solve_decision. Defined.

(** ** Callbacks

    The functions passed as completion callbacks are either opaque functions
    of the caller, whose invocation is recorded in the trace, or the
    continuation closure that [iterate] builds around the rest of its
    arguments. *)

Inductive transitions_arg : Type :=
  | Shared (t : option transition)
  | PerStep (ts : list (option transition)).

Local Unset Elimination Schemes.
Inductive callback : Type :=
  | CbUser (id : nat)
  | CbIterate (values : list value) (transitions : transitions_arg)
              (k : option callback).
Local Set Elimination Schemes.

(** ** Deferred work and trace *)

(** The two closures the source pushes onto [dirtyQueue]. *)
Inductive deferred : Type :=
  | DirtyCleanup      (* pushed by an instantaneous [set] *)
  | UpdateTerminal.   (* pushed by [update] when the engine is done *)

Inductive event_name : Type := EvStart | EvUpdate | EvEnd.

Inductive event : Type :=
  | ClockRegister
  | ClockUnregister
  | Emit (name : event_name) (payload : value)
  | Called (id : nat).

Global Instance event_name_eq_dec : EqDecision event_name.
Proof. solve_decision. Defined.

Global Instance event_eq_dec : EqDecision event.
Proof. solve_decision. Defined.

Inductive error : Type := TypeError | OutOfFuel.

(** ** Plain objects *)

(** The names of the properties that an object literal inherits from
    [Object.prototype] (ECMAScript 2015, Annex B included). *)
Definition Object_prototype_names : list string :=
  ["constructor"; "toString"; "toLocaleString"; "valueOf"; "hasOwnProperty";
   "isPrototypeOf"; "propertyIsEnumerable"; "__defineGetter__";
   "__defineSetter__"; "__lookupGetter__"; "__lookupSetter__"; "__proto__"].

Definition inherited (name : string) : bool :=
  existsb (λ n, bool_decide (n = name)) Object_prototype_names.

(** The curve of [tr] is the name of a member of [Object.prototype]. *)
Definition inherited_curve (tr : transition) : bool :=
  match curve tr with
  | Some c => inherited c
  | None => false
  end.

(** *** Arguments that name no member of [Object.prototype] *)

Definition plain_spec (t : option transition) : bool :=
  match t with
  | Some tr => negb (inherited_curve tr)
  | None => true
  end.

Definition plain_transitions (transitions : transitions_arg) : bool :=
  match transitions with
  | Shared t => plain_spec t
  | PerStep ts => forallb plain_spec ts
  end.

Fixpoint plain_callback (cb : callback) : bool :=
  match cb with
  | CbUser _ => true
  | CbIterate _ transitions k =>
      plain_transitions transitions
      && match k with
         | Some k' => plain_callback k'
         | None => true
         end
  end.

Definition plain_pending (callback_ : option callback) : bool :=
  match callback_ with
  | Some cb => plain_callback cb
  | None => true
  end.

(** ** Interpolation engines *)

(** Modelled from the spec: the interpolation engine contract of section 6
    (reset, set, get, getVelocity, isActive, SUPPORTS_MULTIPLE).  The engine
    classes TweenTransition and MultipleTransition are required by
    Transitionable.js but are not among the sources.  [method] is the type
    of engine constructors, compared by identity; [engine] the type of
    engine instances.  Engines read the wall clock, so [engine_set] and
    [engine_get] receive the current time; [engine_get] also tells whether
    the engine ran the completion hook it was given while being sampled.
    The hook is the loader, which does nothing when the queues are empty, as
    they are whenever [set] has returned. *)
Class EngineAPI : Type := {
  method : Type;
  method_eq_dec :: EqDecision method;
  engine : Type;
  TweenTransition : method;
  SUPPORTS_MULTIPLE : method → option Z;
  new_method : method → engine;
  new_MultipleTransition : method → engine;
  engine_reset : value → option value → engine → engine;
  engine_set : Z → value → transition → engine → engine;
  engine_get : Z → engine → value * engine * bool;
  engine_getVelocity : engine → option value;
  engine_isActive : engine → bool
}.

Section Model.
Context {api : EngineAPI}.

(** ** The instance and its world *)

Record Transitionable : Type := mkTransitionable {
  transitionQueue : list transition;
  endStateQueue : list value;
  callbackQueue : list (option callback);
  state : value;
  velocity : option value;
  _callback : option callback;
  _engineInstance : option engine;
  _currentMethod : option method;
  _state : STATE;
  _dirty : bool
}.

Record World : Type := mkWorld {
  self : Transitionable;
  transitionMethods : gmap string method;
  dirtyQueue : list deferred;
  trace : list event;
  now : Z
}.

Inductive result : Type :=
  | Ok (w : World)
  | Fail (e : error).

Definition bind (r : result) (f : World → result) : result :=
  match r with
  | Ok w => f w
  | Fail e => Fail e
  end.

Definition with_self (t : Transitionable) (w : World) : World :=
  mkWorld t (transitionMethods w) (dirtyQueue w) (trace w) (now w).

Definition log (evs : list event) (w : World) : World :=
  mkWorld (self w) (transitionMethods w) (dirtyQueue w) (trace w ++ evs) (now w).

Definition dirtyQueue_push (d : deferred) (w : World) : World :=
  mkWorld (self w) (transitionMethods w) (dirtyQueue w ++ [d]) (trace w) (now w).

(** Time passing between two calls. *)
Definition elapse (dt : Z) (w : World) : World :=
  mkWorld (self w) (transitionMethods w) (dirtyQueue w) (trace w) (now w + dt).

Definition with_state_ (s : STATE) (t : Transitionable) : Transitionable :=
  mkTransitionable (transitionQueue t) (endStateQueue t) (callbackQueue t)
    (state t) (velocity t) (_callback t) (_engineInstance t)
    (_currentMethod t) s (_dirty t).

Definition with_dirty (d : bool) (t : Transitionable) : Transitionable :=
  mkTransitionable (transitionQueue t) (endStateQueue t) (callbackQueue t)
    (state t) (velocity t) (_callback t) (_engineInstance t)
    (_currentMethod t) (_state t) d.

Definition with_callback (c : option callback) (t : Transitionable) : Transitionable :=
  mkTransitionable (transitionQueue t) (endStateQueue t) (callbackQueue t)
    (state t) (velocity t) c (_engineInstance t)
    (_currentMethod t) (_state t) (_dirty t).

Definition with_engine (e : option engine) (t : Transitionable) : Transitionable :=
  mkTransitionable (transitionQueue t) (endStateQueue t) (callbackQueue t)
    (state t) (velocity t) (_callback t) e
    (_currentMethod t) (_state t) (_dirty t).

Definition with_value (v : value) (t : Transitionable) : Transitionable :=
  mkTransitionable (transitionQueue t) (endStateQueue t) (callbackQueue t)
    v (velocity t) (_callback t) (_engineInstance t)
    (_currentMethod t) (_state t) (_dirty t).

(** [new Transitionable(start)]: [state = start || 0]. *)
Definition Transitionable_new (start : option value) : Transitionable :=
  mkTransitionable [] [] []
    (match start with
     | Some (VNum 0) | None => VNum 0
     | Some v => v
     end)
    None None None None NONE false.

(** ** The engine registry *)

(** What indexing [transitionMethods] yields: an engine class registered
    under the name, a member inherited from [Object.prototype] (truthy, but
    no engine class), or [undefined]. *)
Inductive member : Type :=
  | EngineClass (m : method)
  | PrototypeMember (name : string)
  | Undefined.

(** [name in transitionMethods] *)
Definition has_property (tm : gmap string method) (name : string) : bool :=
  match tm !! name with
  | Some _ => true
  | None => inherited name
  end.

(** [transitionMethods[name]] *)
Definition get_property (tm : gmap string method) (name : string) : member :=
  match tm !! name with
  | Some m => EngineClass m
  | None => if inherited name then PrototypeMember name else Undefined
  end.

Definition register (name : string) (engineClass : method) (w : World) : World :=
  if has_property (transitionMethods w) name then w
  else
    mkWorld (self w) (<[name := engineClass]> (transitionMethods w))
      (dirtyQueue w) (trace w) (now w).

(** [delete] removes an own property and leaves an inherited one. *)
Definition unregister (name : string) (w : World) : bool * World :=
  if has_property (transitionMethods w) name then
    (true, mkWorld (self w) (delete name (transitionMethods w))
             (dirtyQueue w) (trace w) (now w))
  else (false, w).

(** ** The loader *)

(** [(transition instanceof Object && curve && transitionMethods[curve])
     ? transitionMethods[curve] : TweenTransition] *)
Definition select_method (tm : gmap string method) (tr : transition) : member :=
  match curve tr with
  | Some c =>
      if curve_truthy c then
        match get_property tm c with
        | Undefined => EngineClass TweenTransition
        | found => found
        end
      else EngineClass TweenTransition
  | None => EngineClass TweenTransition
  end.

(** [typeof endValue === 'number' || endValue.length <= method.SUPPORTS_MULTIPLE];
    a comparison with [undefined] is false. *)
Definition fits_single (endValue : value) (m : method) : bool :=
  match endValue with
  | VNum _ => true
  | _ =>
      match js_length endValue, SUPPORTS_MULTIPLE m with
      | Some n, Some k => n <=? k
      | _, _ => false
      end
  end.

Definition construct (m : method) (endValue : value) : engine :=
  if fits_single endValue m then new_method m else new_MultipleTransition m.

(** The engine instance that [_loadNext] drives: the current one when the
    selected constructor is the current one, a new one otherwise. *)
Definition engine_for (t : Transitionable) (m : method) (endValue : value)
  : option engine :=
  if decide (_currentMethod t = Some m) then _engineInstance t
  else Some (construct m endValue).

Definition shift {A : Type} (q : list A) : option A * list A :=
  match q with
  | [] => (None, [])
  | x :: q' => (Some x, q')
  end.

(** [reset] the engine to the current state and velocity, re-read the
    velocity from it when one was defined and store it on the transition
    spec, then [set] the engine in motion.  Returns the engine and the
    velocity kept by the instance. *)
Definition drive (now_ : Z) (st : value) (vel0 : option value)
    (endValue : value) (tr : transition) (e : engine) : engine * option value :=
  let e1 := engine_reset st vel0 e in
  let vel :=
    match vel0 with
    | None => None
    | Some _ => engine_getVelocity e1
    end in
  let tr' :=
    match vel0 with
    | None => tr
    | Some _ => Transition (duration tr) (curve tr) vel
    end in
  (engine_set now_ endValue tr' e1, vel).

(** When the value selected is a member of [Object.prototype], the loader
    throws: [new method()] throws for the members that are no
    constructors, and for [constructor] (that is, [Object]) the instance it
    makes has no [reset].  Modelled from the spec: a composite engine runs
    one engine of the wrapped kind per component, so wrapping such a member
    throws as well. *)
Definition _loadNext (w : World) : result :=
  let t := self w in
  match endStateQueue t with
  | [] => Ok w
  | endValue :: endStates =>
      let '(transition_, transitions) := shift (transitionQueue t) in
      let '(cb, callbacks) := shift (callbackQueue t) in
      match transition_ with
      | None => Fail TypeError          (* undefined.curve *)
      | Some tr =>
          match select_method (transitionMethods w) tr with
          | EngineClass m =>
              match engine_for t m endValue with
              | None => Fail TypeError      (* null.reset(...) *)
              | Some e =>
                  let '(e2, vel) :=
                    drive (now w) (state t) (velocity t) endValue tr e in
                  Ok (with_self
                        (mkTransitionable transitions endStates callbacks
                           (state t) vel (mjoin cb) (Some e2) (Some m)
                           (_state t) (_dirty t)) w)
              end
          | PrototypeMember _ => Fail TypeError   (* no engine class *)
          | Undefined => Fail TypeError
          end
      end
  end.

(** ** The value interface *)

Definition get (w : World) : value := state (self w).

Definition isActive (w : World) : bool :=
  bool_decide (_state (self w) = UPDATE).

(** [reset(startState, startVelocity)].  The engine that receives
    [reset(startState)] is dropped in the same call. *)
Definition reset (startState : value) (startVelocity : option value)
    (w : World) : World :=
  let t := self w in
  with_self
    (mkTransitionable [] [] [] startState startVelocity (_callback t)
       None None (_state t) (_dirty t)) w.

(** [halt()].  As in [reset], the engine is reset and then dropped. *)
Definition halt (w : World) : World :=
  let t := self w in
  let currentState := get w in
  with_self
    (mkTransitionable [] [] [] currentState None (_callback t)
       None None (_state t) (_dirty t)) w.

(** ** set *)

(** [if (this.isActive()) this.halt(); else { START, register, start }] *)
Definition begin_transition (w : World) : World :=
  if isActive w then halt w
  else
    log [ClockRegister; Emit EvStart (state (self w))]
      (with_self (with_state_ START (self w)) w).

(** The three [push] calls. *)
Definition enqueue (endState : value) (tr : transition)
    (callback_ : option callback) (w : World) : World :=
  let t := self w in
  with_self
    (mkTransitionable (transitionQueue t ++ [tr])
       (endStateQueue t ++ [endState]) (callbackQueue t ++ [callback_])
       (state t) (velocity t) (_callback t) (_engineInstance t)
       (_currentMethod t) (_state t) (_dirty t)) w.

(** The [switch] on the state at the head of an instantaneous [set]. *)
Definition interrupt (s : STATE) : STATE :=
  match s with
  | NONE => START
  | END => START
  | UPDATE => END
  | START => START
  end.

(** [set_with invoke endState transition callback] is the body of [set];
    [invoke] is what calling [callback] does.  It is a parameter so that the
    continuation of [iterate] can be defined by structural recursion. *)
Definition set_with (invoke : World → result) (endState : value)
    (transition_ : option transition) (callback_ : option callback)
    (w : World) : result :=
  match transition_ with
  | None =>
      let w1 := with_self (with_state_ (interrupt (_state (self w))) (self w)) w in
      let w2 := reset endState None w1 in
      let w3 :=
        if _dirty (self w2) then w2
        else
          dirtyQueue_push DirtyCleanup
            (log [ClockRegister; Emit EvStart (state (self w2))]
               (with_self (with_state_ START (with_dirty true (self w2))) w2)) in
      match callback_ with
      | Some _ => invoke w3
      | None => Ok w3
      end
  | Some tr => _loadNext (enqueue endState tr callback_ (begin_transition w))
  end.

(** [transitions instanceof Array ? transitions.shift() : transitions] *)
Definition next_transition (transitions : transitions_arg)
  : option transition * transitions_arg :=
  match transitions with
  | Shared t => (t, Shared t)
  | PerStep ts => (mjoin (fst (shift ts)), PerStep (snd (shift ts)))
  end.

(** Calling a callback.  The continuation built by [iterate] runs
    [iterate] on what is left of the two arrays. *)
Fixpoint run_callback (cb : callback) : World → result :=
  match cb with
  | CbUser id => fun w => Ok (log [Called id] w)
  | CbIterate values transitions k =>
      (fix iterate_rest (values : list value) (transitions : transitions_arg)
           {struct values} : World → result :=
         match values with
         | [] =>
             match k with
             | Some k' => run_callback k'
             | None => Ok
             end
         | v :: values' =>
             let transitions' := snd (next_transition transitions) in
             set_with (iterate_rest values' transitions') v
               (fst (next_transition transitions))
               (Some (CbIterate values' transitions' k))
         end) values transitions
  end.

(** [if (callback) callback()] *)
Definition invoke (callback_ : option callback) : World → result :=
  match callback_ with
  | Some cb => run_callback cb
  | None => Ok
  end.

(** [set(endState, transition, callback)] *)
Definition set (endState : value) (transition_ : option transition)
    (callback_ : option callback) : World → result :=
  set_with (invoke callback_) endState transition_ callback_.

Definition iterate (values : list value) (transitions : transitions_arg)
    (callback_ : option callback) : World → result :=
  match values with
  | [] => invoke callback_
  | v :: values' =>
      let transitions' := snd (next_transition transitions) in
      set v (fst (next_transition transitions))
        (Some (CbIterate values' transitions' callback_))
  end.

(** The closure that the constructor pushes onto [nextTickQueue] when
    [start] is defined. *)
Definition initial_set (start : value) (w : World) : result :=
  match _state (self w) with
  | NONE | END => set start None None w
  | START | UPDATE => Ok w
  end.



(** ** update *)

Definition update (w : World) : result :=
  let w0 := with_self (with_state_ UPDATE (self w)) w in
  match _engineInstance (self w0) with
  | None => Ok w0
  | Some e =>
      let '(sampled, e', hook) := engine_get (now w0) e in
      let w1 := with_self (with_engine (Some e') (self w0)) w0 in
      bind (if hook then _loadNext w1 else Ok w1) (fun w2 =>
        let w3 := with_self (with_value sampled (self w2))
                    (log [Emit EvUpdate sampled] w2) in
        match _engineInstance (self w3) with
        | Some e3 =>
            if engine_isActive e3 then Ok w3
            else Ok (dirtyQueue_push UpdateTerminal w3)
        | None => Ok w3
        end)
  end.

(** The world [update] leaves when it samples [sampled] from the engine,
    before the deferred push. *)
Definition sampled_world (sampled : value) (e' : engine) w : World :=
  mkWorld
    (mkTransitionable (transitionQueue (self w)) (endStateQueue (self w))
       (callbackQueue (self w)) sampled (velocity (self w))
       (_callback (self w)) (Some e') (_currentMethod (self w)) UPDATE
       (_dirty (self w)))
    (transitionMethods w) (dirtyQueue w) (trace w ++ [Emit EvUpdate sampled])
    (now w).

(** ** Invariant *)

Definition is_empty {A : Type} (l : list A) : bool :=
  match l with
  | [] => true
  | _ :: _ => false
  end.

(** Between calls the three queues are empty, and an engine kind is
    recorded only together with an engine instance. *)
Definition wf (w : World) : bool :=
  is_empty (transitionQueue (self w))
  && is_empty (endStateQueue (self w))
  && is_empty (callbackQueue (self w))
  && match _currentMethod (self w), _engineInstance (self w) with
     | Some _, None => false
     | _, _ => true
     end.

(** The engine instance is a single-value engine: the end value is a plain
    number, or its length is within the declared threshold. *)
Definition single_value (endValue : value) (m : method) : Prop :=
  (∃ n, endValue = VNum n)
  ∨ (∃ len k, js_length endValue = Some len
              ∧ SUPPORTS_MULTIPLE m = Some k ∧ len ≤ k).


(** ** The deferred queue *)

(** The bodies of the two closures pushed onto [dirtyQueue]. *)
Definition run_deferred (d : deferred) (w : World) : result :=
  match d with
  | DirtyCleanup =>
      let t := with_state_ END (with_dirty false (self w)) in
      Ok (log [ClockUnregister; Emit EvEnd (state t)] (with_self t w))
  | UpdateTerminal =>
      let t := with_state_ END (self w) in
      let w1 := log [ClockUnregister; Emit EvEnd (state t)] (with_self t w) in
      match _callback (self w1) with
      | Some cb => run_callback cb (with_self (with_callback None (self w1)) w1)
      | None => Ok w1
      end
  end.

Definition dirtyQueue_shift (w : World) : World :=
  mkWorld (self w) (transitionMethods w) (tail (dirtyQueue w)) (trace w) (now w).

(** Modelled from the spec: the deferred-phase queue of section 6
    (famous/core/queues/dirtyQueue is required by Transitionable.js but is
    not among the sources).  Pushed functions run exactly once, first in
    first out, after the current synchronous call stack has unwound;
    functions pushed meanwhile run in the same phase. *)
Fixpoint flush (fuel : nat) (w : World) : result :=
  match dirtyQueue w with
  | [] => Ok w
  | d :: _ =>
      match fuel with
      | O => Fail OutOfFuel
      | S fuel' => bind (run_deferred d (dirtyQueue_shift w)) (flush fuel')
      end
  end.

(** Instantaneous [set(v)] calls issued one after the other. *)
Fixpoint set_all (vs : list value) (w : World) : result :=
  match vs with
  | [] => Ok w
  | v :: vs' => bind (set v None None w) (set_all vs')
  end.

(** The number of [end] events in a trace. *)
Definition is_end (ev : event) : bool :=
  match ev with
  | Emit EvEnd _ => true
  | _ => false
  end.

Fixpoint count_end (evs : list event) : nat :=
  match evs with
  | [] => 0%nat
  | ev :: evs' => ((if is_end ev then 1 else 0) + count_end evs')%nat
  end.

(** The instance is well formed and its pending callback holds no spec
    whose curve names a member of [Object.prototype]. *)
Definition plain_world (w : World) : bool :=
  wf w && plain_pending (_callback (self w)).

End Model.

(** ** A sample engine *)

(** Modelled from the spec: an engine that meets the contract of section 6,
    standing in for the engine classes that are not among the sources.  It
    interpolates linearly over integer time, and is used to run the model on
    concrete inputs.  A constructor is identified by its name. *)

Record tween : Type := mkTween {
  tw_class : string;
  tw_composite : bool;
  tw_current : value;
  tw_from : value;
  tw_to : value;
  tw_start : Z;
  tw_duration : Z;
  tw_active : bool;
  tw_velocity : option value
}.

Definition lerp_num (elapsed total a b : Z) : Z := a + (b - a) * elapsed / total.

Definition lerp (elapsed total : Z) (from to : value) : value :=
  match from, to with
  | VNum a, VNum b => VNum (lerp_num elapsed total a b)
  | VArr xs, VArr ys => VArr (zip_with (lerp_num elapsed total) xs ys)
  | _, _ => to
  end.

Definition tween_new (composite : bool) (class : string) : tween :=
  mkTween class composite (VNum 0) (VNum 0) (VNum 0) 0 0 false None.

Definition tween_reset (v : value) (vel : option value) (e : tween) : tween :=
  mkTween (tw_class e) (tw_composite e) v v v 0 0 false vel.

Definition tween_set (now_ : Z) (endValue : value) (tr : transition)
    (e : tween) : tween :=
  mkTween (tw_class e) (tw_composite e) (tw_current e) (tw_current e) endValue
    now_ (duration tr) true (tw_velocity e).

Definition tween_get (now_ : Z) (e : tween) : value * tween * bool :=
  if tw_active e then
    if tw_duration e <=? now_ - tw_start e then
      (tw_to e,
       mkTween (tw_class e) (tw_composite e) (tw_to e) (tw_from e) (tw_to e)
         (tw_start e) (tw_duration e) false (tw_velocity e),
       true)
    else
      let v := lerp (now_ - tw_start e) (tw_duration e) (tw_from e) (tw_to e) in
      (v,
       mkTween (tw_class e) (tw_composite e) v (tw_from e) (tw_to e)
         (tw_start e) (tw_duration e) true (tw_velocity e),
       false)
  else (tw_current e, e, false).

Definition sample_api : EngineAPI := {|
  method := string;
  engine := tween;
  TweenTransition := "TweenTransition";
  SUPPORTS_MULTIPLE := fun m =>
    if decide (m = "SpringTransition") then Some 3 else Some 1;
  new_method := tween_new false;
  new_MultipleTransition := tween_new true;
  engine_reset := tween_reset;
  engine_set := tween_set;
  engine_get := tween_get;
  engine_getVelocity := tw_velocity;
  engine_isActive := tw_active
|}.

(** ** Call sequences *)

Section Driver.
Context {api : EngineAPI}.

(** What a caller, the ticker and the passing of time do to an instance. *)
Inductive call : Type :=
  | CallSet (endState : value) (transition_ : option transition)
            (callback_ : option callback)
  | CallUpdate
  | CallHalt
  | CallReset (startState : value) (startVelocity : option value)
  | CallIterate (values : list value) (transitions : transitions_arg)
                (callback_ : option callback)
  | CallRegister (name : string) (engineClass : method)
  | CallUnregister (name : string)
  | Flush (fuel : nat)
  | Elapse (dt : Z).

Definition run_call (c : call) (w : World) : result :=
  match c with
  | CallSet v tr cb => set v tr cb w
  | CallUpdate => update w
  | CallHalt => Ok (halt w)
  | CallReset v vel => Ok (reset v vel w)
  | CallIterate vs ts cb => iterate vs ts cb w
  | CallRegister name m => Ok (register name m w)
  | CallUnregister name => Ok (snd (unregister name w))
  | Flush fuel => flush fuel w
  | Elapse dt => Ok (elapse dt w)
  end.

Fixpoint run_calls (cs : list call) (w : World) : result :=
  match cs with
  | [] => Ok w
  | c :: cs' => bind (run_call c w) (run_calls cs')
  end.

(** The specs given to the call, and those kept in its callback, name no
    member of [Object.prototype]. *)
Definition plain_call (c : call) : bool :=
  match c with
  | CallSet _ t cb => plain_spec t && plain_pending cb
  | CallIterate _ transitions cb => plain_transitions transitions && plain_pending cb
  | _ => true
  end.

(** What can be observed of the outcome of a call. *)
Definition is_ok (r : result) : bool :=
  match r with
  | Ok _ => true
  | Fail _ => false
  end.

Definition observe {A : Type} (f : World → A) (r : result) : option A :=
  match r with
  | Ok w => Some (f w)
  | Fail _ => None
  end.

(** The world of a newly constructed instance, with an empty registry. *)
Definition new_world (start : option value) : World :=
  mkWorld (Transitionable_new start) ∅ [] [] 0.

End Driver.

Definition linear (d : Z) : transition := Transition d (Some "linear") None.

(** ** Sample worlds *)

Section Samples.
Local Existing Instance sample_api.

Definition run_sample : list call → World → result := run_calls.

(** A transition of 100 ms towards 5, sampled once after 40 ms; 20 ms have
    passed since. *)
Definition in_flight_calls : list call :=
  [CallSet (VNum 5) (Some (linear 100)) None; Elapse 40; CallUpdate; Elapse 20].

(** The same transition just after its first sample. *)
Definition sampled_calls : list call :=
  [CallSet (VNum 5) (Some (linear 100)) None; Elapse 40; CallUpdate].

(** The world the sample calls lead to from a new instance. *)
Definition world_after (cs : list call) : World :=
  match run_sample cs (new_world None) with
  | Ok w => w
  | Fail _ => new_world None
  end.

(** The transition of 100 ms towards 5, when its time is up. *)
Definition finishing_calls : list call :=
  [CallSet (VNum 5) (Some (linear 100)) None; Elapse 100].

(** A new instance on which three components towards [1; 2; 3] have just
    been pushed. *)
Definition pushed_world : World :=
  enqueue (VArr [1; 2; 3]) (linear 100) None (begin_transition (new_world None)).

Definition unknown_curve : transition := Transition 100 (Some "nosuchcurve") None.

(** A spec whose curve is the name of a member of [Object.prototype]. *)
Definition toString_curve : transition := Transition 100 (Some "toString") None.

(** The transition of 100 ms towards 5, sampled when its time is up: the
    terminal sequence is deferred and has not run yet.  Two instantaneous
    sets follow, and then the deferred work runs. *)
Definition completed_calls : list call :=
  [CallSet (VNum 5) (Some (linear 100)) None; Elapse 100; CallUpdate].

Definition two_sets_after_completion : list call :=
  completed_calls
  ++ [CallSet (VNum 1) None None; CallSet (VNum 2) None None; Flush 5].

(** A new instance on which a transition with that curve has just been
    pushed. *)
Definition pushed_toString_world : World :=
  enqueue (VNum 5) toString_curve None (begin_transition (new_world None)).

End Samples.

(** ** More of the interface *)

Section Interface.
Context {api : EngineAPI}.

(** The property key that the curve of [delay], [function(){return 0;}],
    converts to. *)
Definition delay_curve : string := "function(){return 0;}".

(** [delay(duration, callback)] *)
Definition delay (duration_ : Z) (callback_ : option callback) (w : World)
  : result :=
  set (get w) (Some (Transition duration_ (Some delay_curve) None)) callback_ w.

(** [update()] called by the ticker [n] times in a row. *)
Fixpoint update_n (n : nat) (w : World) : result :=
  match n with
  | O => Ok w
  | S n' => bind (update w) (update_n n')
  end.

(** [iterate] is given no spec at all: [undefined], or an empty array. *)
Definition no_specs (transitions : transitions_arg) : Prop :=
  transitions = Shared None ∨ transitions = PerStep [].

(** The world in which a run of instantaneous [set] calls on a dirty
    instance in state START leaves the value [v]. *)
Definition instant_world (v : value) (w : World) : World :=
  mkWorld
    (mkTransitionable [] [] [] v None (_callback (self w)) None None START true)
    (transitionMethods w) (dirtyQueue w) (trace w) (now w).

(** The instance is well formed and holds no velocity. *)
Definition settled (w : World) : Prop :=
  wf w = true ∧ velocity (self w) = None.

(** A call that gives no velocity to [reset]. *)
Definition no_velocity_given (c : call) : bool :=
  match c with
  | CallReset _ (Some _) => false
  | _ => true
  end.

End Interface.

Section MoreSamples.
Local Existing Instance sample_api.

(** A transition of 100 ms towards 5 with a callback, when its time is up. *)
Definition finishing_with_callback : list call :=
  [CallSet (VNum 5) (Some (linear 100)) (Some (CbUser 7)); Elapse 100].

End MoreSamples.

(** * TouchTracker: a shallow embedding of src/inputs/TouchTracker.js

    The tracker keeps, for each touch identifier, an array of the data it
    stamped for that touch.  The data of a move or of an end refer to that
    very array, which later moves extend, so arrays live in a store and are
    referred to by their position in it.  Emitting to [eventOutput] is
    recorded; what the subscribers do is not modelled.  The clock read by
    [_timestampTouch] does not advance while a handler runs. *)

Module TouchTracker.

Record touch : Type := Touch {
  clientX : Z;
  clientY : Z;
  identifier : Z
}.

(** A touch event as the handlers read it; [origin] is whatever the sender
    attached to the event. *)
Record touch_event : Type := TouchEvent {
  touches : list touch;
  changedTouches : list touch;
  origin : option nat
}.

(** The object built by [_timestampTouch]; [history] is [null] or the
    array of the touch. *)
Record data : Type := Data {
  x : Z;
  y : Z;
  data_identifier : Z;
  data_origin : option nat;
  timestamp : Z;
  count : nat;
  history : option nat
}.

Inductive track_event : Type := trackstart | trackmove | trackend.

(** The fields of a tracker.  The constructor does not assign
    [touchLimit], which is [undefined] unless set from outside. *)
Record tracker : Type := Tracker {
  touchHistory : gmap Z nat;
  isTouched : bool;
  touchLimit : option Z
}.

Record world : Type := TrackerWorld {
  this : tracker;
  arrays : list (list data);
  emitted : list (track_event * data);
  clock : Z
}.

(** [new TouchTracker(options)] *)
Definition TouchTracker_new : tracker := Tracker ∅ false None.

Definition new_world : world := TrackerWorld TouchTracker_new [] [] 0.

Definition _timestampTouch (t : touch) (event : touch_event)
    (history_ : option nat) (w : world) : data :=
  Data (clientX t) (clientY t) (identifier t) (origin event) (clock w)
    (length (touches event)) history_.

Definition emit (name : track_event) (d : data) (w : world) : world :=
  TrackerWorld (this w) (arrays w) (emitted w ++ [(name, d)]) (clock w).

(** [track(data)]: [this.touchHistory[data.identifier] = [data]], a new
    array. *)
Definition track (d : data) (w : world) : world :=
  TrackerWorld
    (Tracker (<[data_identifier d := length (arrays w)]> (touchHistory (this w)))
       (isTouched (this w)) (touchLimit (this w)))
    (arrays w ++ [[d]]) (emitted w) (clock w).

(** [event.touches.length > this.touchLimit]; false when the limit is
    [undefined]. *)
Definition over_limit (event : touch_event) (w : world) : bool :=
  match touchLimit (this w) with
  | Some k => k <? Z.of_nat (length (touches event))
  | None => false
  end.

Definition set_isTouched (b : bool) (w : world) : world :=
  TrackerWorld (Tracker (touchHistory (this w)) b (touchLimit (this w)))
    (arrays w) (emitted w) (clock w).

(** The body of the loop of [_handleStart]. *)
Definition start_touch (event : touch_event) (w : world) (t : touch) : world :=
  let d := _timestampTouch t event None w in
  let w1 := emit trackstart d w in
  match touchHistory (this w1) !! identifier t with
  | Some _ => w1
  | None => track d w1
  end.

Definition _handleStart (event : touch_event) (w : world) : world :=
  if over_limit event w then w
  else foldl (start_touch event) (set_isTouched true w) (changedTouches event).

(** [history.push(data)] on the array at [r]. *)
Definition push (r : nat) (d : data) (w : world) : world :=
  TrackerWorld (this w) (alter (λ h, h ++ [d]) r (arrays w)) (emitted w)
    (clock w).

(** The body of the loop of [_handleMove]. *)
Definition move_touch (event : touch_event) (w : world) (t : touch) : world :=
  match touchHistory (this w) !! identifier t with
  | Some r =>
      let d := _timestampTouch t event (Some r) w in
      emit trackmove d (push r d w)
  | None => w
  end.

Definition _handleMove (event : touch_event) (w : world) : world :=
  foldl (move_touch event) w (changedTouches event).

Definition forget (id : Z) (w : world) : world :=
  TrackerWorld
    (Tracker (delete id (touchHistory (this w))) (isTouched (this w))
       (touchLimit (this w)))
    (arrays w) (emitted w) (clock w).

(** The body of the loop of [_handleEnd]. *)
Definition end_touch (event : touch_event) (w : world) (t : touch) : world :=
  match touchHistory (this w) !! identifier t with
  | Some r =>
      let d := _timestampTouch t event (Some r) w in
      forget (identifier t) (emit trackend d w)
  | None => w
  end.

Definition _handleEnd (event : touch_event) (w : world) : world :=
  if isTouched (this w) then
    set_isTouched false (foldl (end_touch event) w (changedTouches event))
  else w.

(** The events that [eventInput] routes to the handlers. *)
Inductive input : Type := touchstart | touchmove | touchend | touchcancel.

Definition handle (i : input) (event : touch_event) (w : world) : world :=
  match i with
  | touchstart => _handleStart event w
  | touchmove => _handleMove event w
  | touchend | touchcancel => _handleEnd event w
  end.

(** What happens to a tracker: an event comes in, or time passes. *)
Inductive step : Type :=
  | Deliver (i : input) (event : touch_event)
  | Wait (dt : Z).

Definition run_step (w : world) (s : step) : world :=
  match s with
  | Deliver i event => handle i event w
  | Wait dt => TrackerWorld (this w) (arrays w) (emitted w) (clock w + dt)
  end.

Definition run (steps : list step) (w : world) : world :=
  foldl run_step w steps.

(** The array kept for [id] at [r]: it starts with the data of the start,
    which have no history, every later entry refers to the array itself,
    and all entries carry [id]. *)
Definition history_ok (id : Z) (r : nat) (h : list data) : Prop :=
  ∃ d ds, h = d :: ds
    ∧ history d = None
    ∧ Forall (λ d', history d' = Some r) ds
    ∧ Forall (λ d', data_identifier d' = id) h.

Definition wf (w : world) : Prop :=
  ∀ id r, touchHistory (this w) !! id = Some r →
    ∃ h, arrays w !! r = Some h ∧ history_ok id r h.

(** The identifiers of the changed touches of an event. *)
Definition changed_ids (event : touch_event) : list Z :=
  identifier <$> changedTouches event.

(** What [_handleMove] emits for one changed touch. *)
Definition moved (event : touch_event) (w : world) (t : touch)
  : option (track_event * data) :=
  r ← touchHistory (this w) !! identifier t;
  Some (trackmove, _timestampTouch t event (Some r) w).

(** What [_handleEnd] emits for one changed touch. *)
Definition released (event : touch_event) (w : world) (t : touch)
  : option (track_event * data) :=
  r ← touchHistory (this w) !! identifier t;
  Some (trackend, _timestampTouch t event (Some r) w).

(** What [_handleStart] emits for one changed touch. *)
Definition started (event : touch_event) (w : world) (t : touch)
  : track_event * data :=
  (trackstart, _timestampTouch t event None w).

(** ** Sample touches *)

Definition finger0 : touch := Touch 10 20 0.
Definition finger0_moved : touch := Touch 11 21 0.
Definition finger1 : touch := Touch 30 40 1.

Definition start0 : touch_event := TouchEvent [finger0] [finger0] None.
Definition move0 : touch_event := TouchEvent [finger0_moved] [finger0_moved] None.
Definition end0 : touch_event := TouchEvent [] [finger0_moved] None.

(** One finger down, and the same finger moved 16 ms later. *)
Definition one_down : list step := [Deliver touchstart start0].
Definition one_moved : list step :=
  [Deliver touchstart start0; Wait 16; Deliver touchmove move0].

End TouchTracker.

(** * BaseMeshBehavior: the mesh behavior at the end of
      src/core/Transitionable.js

    The behavior installs a geometry or a material on the three.js object
    of its element.  The calls to [dispose] and to [_needsToBeRendered] are
    recorded on the element; the callbacks of the super class and the
    constructor, which only watches for a timeout, are not modelled. *)

Module MeshBehavior.

Inductive component : Type :=
  | BoxGeometry (width height depth : Z)
  | MeshPhongMaterial (color : Z)
  | Created (id : nat).     (* a component made by a subclass *)

(** What a property of [threeObject3d] can hold: a component, which has a
    [dispose] method; another truthy value, which has none (a string, a
    vector, a method of the object); a member inherited from
    [Object.prototype], truthy and without [dispose] as well; or a falsy
    value, [undefined] among them. *)
Inductive slot : Type :=
  | Component (c : component)
  | Truthy (id : nat)
  | Inherited (name : string)
  | Falsy.

Record size : Type := Size { size_x : Z; size_y : Z; size_z : Z }.

(** An element: the properties of [threeObject3d], its own and those that
    its class provides, as plain data properties (the class of the object
    is not among the sources); the calculated size; the components disposed
    so far and the number of calls to [_needsToBeRendered]. *)
Record element : Type := Element {
  threeObject3d : gmap string slot;
  calculatedSize : size;
  disposed : list component;
  renders : nat
}.

(** What a subclass provides: the static [type], and [createComponent],
    which throws ([None]) in the base class. *)
Record behavior : Type := Behavior {
  type : string;
  createComponent : element → option component
}.

Definition base_class (type_ : string) : behavior := Behavior type_ (λ _, None).

(** [element.threeObject3d[name]]: where the object has no property of that
    name, a member of [Object.prototype] shows through, and [undefined]
    otherwise. *)
Definition property (el : element) (name : string) : slot :=
  match threeObject3d el !! name with
  | Some s => s
  | None => if inherited name then Inherited name else Falsy
  end.

Definition dispose (c : component) (el : element) : element :=
  Element (threeObject3d el) (calculatedSize el) (disposed el ++ [c]) (renders el).

(** [element.threeObject3d[name] = newComponent]; [None] is [undefined],
    which the property then holds. *)
Definition assign (name : string) (newComponent : option component)
    (el : element) : element :=
  Element
    (<[name := match newComponent with
               | Some c => Component c
               | None => Falsy
               end]> (threeObject3d el))
    (calculatedSize el) (disposed el) (renders el).

(** [setMeshComponent]; [None] when calling [dispose] throws, the truthy
    value found having no such method. *)
Definition setMeshComponent (el : element) (name : string)
    (newComponent : option component) : option element :=
  match property el name with
  | Component old => Some (assign name newComponent (dispose old el))
  | Truthy _ | Inherited _ => None
  | Falsy => Some (assign name newComponent el)
  end.

Definition makeDefaultComponent (el : element) (name : string)
  : option component :=
  if decide (name = "geometry") then
    Some (BoxGeometry (size_x (calculatedSize el)) (size_y (calculatedSize el))
            (size_z (calculatedSize el)))
  else if decide (name = "material") then Some (MeshPhongMaterial 0xff6600)
  else None.

Definition setDefaultComponent (el : element) (name : string)
  : option element :=
  setMeshComponent el name (makeDefaultComponent el name).

Definition _needsToBeRendered (el : element) : element :=
  Element (threeObject3d el) (calculatedSize el) (disposed el) (S (renders el)).

(** [connectedCallback]; [None] when [createComponent] or
    [setMeshComponent] throws. *)
Definition connectedCallback (b : behavior) (el : element) : option element :=
  c ← createComponent b el;
  el' ← setMeshComponent el (type b) (Some c);
  Some (_needsToBeRendered el').

Definition disconnectedCallback (b : behavior) (el : element)
  : option element :=
  el' ← setDefaultComponent el (type b);
  Some (_needsToBeRendered el').

(** The components that [setMeshComponent] disposes of when it finds [s]. *)
Definition disposable (s : slot) : list component :=
  match s with
  | Component c => [c]
  | _ => []
  end.

(** ** A sample behavior *)

Definition geometry_behavior : behavior :=
  Behavior "geometry" (λ _, Some (Created 1)).

(** A behavior whose type is the name of a member of [Object.prototype]. *)
Definition toString_behavior : behavior :=
  Behavior "toString" (λ _, Some (Created 1)).

Definition bare_element : element := Element ∅ (Size 1 2 3) [] 0.

End MeshBehavior.

(** * Properties *)

Section Properties.
Context {api : EngineAPI}.
Implicit Types (w : World) (v endState : value) (tr : transition)
  (cb : option callback).

(** ** Registry *)

(** C9: what [register] and [unregister] do, name by name.  For a name
    that [Object.prototype] does not provide they keep the contract:
    [register] adds the mapping when the name is absent and changes nothing
    when it is in use, so the original registration stays; [unregister]
    removes the mapping and returns true when the name was registered, and
    returns false, changing nothing, when it was not.  For an inherited
    name that was never registered the [in] test succeeds all the same:
    [register] adds nothing, [unregister] returns true, and indexing the
    registry keeps yielding the inherited member. *)
Theorem register_unregister_contract (name : string) (engineClass : method) w :
  match transitionMethods w !! name with
  | Some original =>
      register name engineClass w = w
      ∧ transitionMethods (register name engineClass w) !! name = Some original
      ∧ fst (unregister name w) = true
      ∧ transitionMethods (snd (unregister name w)) !! name = None
      ∧ (∀ other, other ≠ name →
           transitionMethods (snd (unregister name w)) !! other
           = transitionMethods w !! other)
  | None =>
      if inherited name then
        register name engineClass w = w
        ∧ fst (unregister name w) = true
        ∧ transitionMethods (snd (unregister name w)) = transitionMethods w
        ∧ get_property (transitionMethods (register name engineClass w)) name
          = PrototypeMember name
      else
        transitionMethods (register name engineClass w) !! name = Some engineClass
        ∧ (∀ other, other ≠ name →
             transitionMethods (register name engineClass w) !! other
             = transitionMethods w !! other)
        ∧ unregister name w = (false, w)
  end.
Proof.
  unfold register, unregister, has_property.
  destruct (transitionMethods w !! name) as [original|] eqn:Hname; simpl.
  - repeat split; auto.
    + apply lookup_delete_eq.
    + intros other Hne. by apply lookup_delete_ne.
  - destruct (inherited name) eqn:Hin; simpl.
    + repeat split; [by apply delete_id|].
      unfold get_property. by rewrite Hname, Hin.
    + repeat split.
      * apply lookup_insert_eq.
      * intros other Hne. by apply lookup_insert_ne.
Qed.

(** ** Helper lemmas on the loader and on update *)

Lemma _loadNext_idle w : endStateQueue (self w) = [] → _loadNext w = Ok w.
Proof. intros Hq. unfold _loadNext. by rewrite Hq. Qed.

Lemma update_sampled w e sampled e' hook :
  _engineInstance (self w) = Some e →
  endStateQueue (self w) = [] →
  engine_get (now w) e = (sampled, e', hook) →
  update w =
    Ok (if engine_isActive e' then sampled_world sampled e' w
        else dirtyQueue_push UpdateTerminal (sampled_world sampled e' w)).
Proof.
  intros He Hq Hget. unfold update. cbn. rewrite He, Hget.
  destruct hook; [rewrite _loadNext_idle by exact Hq|]; cbn;
    destruct (engine_isActive e'); reflexivity.
Qed.

Lemma update_no_engine w :
  _engineInstance (self w) = None →
  update w = Ok (with_self (with_state_ UPDATE (self w)) w).
Proof. intros He. unfold update. cbn. by rewrite He. Qed.

(** ** The loader *)

Lemma wf_spec w :
  wf w = true ↔
    transitionQueue (self w) = [] ∧ endStateQueue (self w) = []
    ∧ callbackQueue (self w) = []
    ∧ (is_Some (_currentMethod (self w)) → is_Some (_engineInstance (self w))).
Proof.
  unfold wf.
  destruct (transitionQueue (self w)), (endStateQueue (self w)),
    (callbackQueue (self w)), (_currentMethod (self w)),
    (_engineInstance (self w)); cbn; split;
    try discriminate; try (intros (? & ? & ? & ?); discriminate);
    try (intros _; repeat split; eauto; intros [? ?]; discriminate);
    try reflexivity.
  intros (_ & _ & _ & H). destruct H as [? H]; [eauto|discriminate].
Qed.

Lemma fits_single_spec (endValue : value) (m : method) :
  fits_single endValue m = true ↔ single_value endValue m.
Proof.
  unfold fits_single, single_value. split.
  - destruct endValue as [n|xs|kv]; [eauto|..];
      (destruct (js_length _) as [len|] eqn:Hlen; [|discriminate];
       destruct (SUPPORTS_MULTIPLE m) as [k|] eqn:Hk; [|discriminate];
       intros Hle; apply Z.leb_le in Hle; right; eauto).
  - intros [[n ->]|(len & k & Hlen & Hk & Hle)]; [reflexivity|].
    destruct endValue; [reflexivity|..]; rewrite Hlen, Hk; by apply Z.leb_le.
Qed.

Lemma engine_for_is_Some (t : Transitionable) (m : method) (endValue : value) :
  (is_Some (_currentMethod t) → is_Some (_engineInstance t)) →
  is_Some (engine_for t m endValue).
Proof.
  intros H. unfold engine_for. case_decide as Hm; [|eauto].
  apply H. rewrite Hm. eauto.
Qed.

(** What the ternary selects, case by case. *)
Lemma select_method_spec (tm : gmap string method) tr :
  select_method tm tr
  = match curve tr with
    | Some c =>
        if decide (c = "") then EngineClass TweenTransition
        else
          match tm !! c with
          | Some m => EngineClass m
          | None =>
              if inherited c then PrototypeMember c
              else EngineClass TweenTransition
          end
    | None => EngineClass TweenTransition
    end.
Proof.
  unfold select_method, curve_truthy, get_property.
  destruct (curve tr) as [c|]; [|reflexivity].
  case_decide as Hc; [subst c; reflexivity|].
  rewrite bool_decide_eq_true_2 by exact Hc.
  destruct (tm !! c); [reflexivity|]. by destruct (inherited c).
Qed.

Lemma select_method_defined (tm : gmap string method) tr :
  select_method tm tr ≠ Undefined.
Proof.
  rewrite select_method_spec. destruct (curve tr) as [c|]; [|discriminate].
  case_decide; [discriminate|].
  destruct (tm !! c); [discriminate|]. destruct (inherited c); discriminate.
Qed.

Lemma _loadNext_loaded w endValue endStates tr trs cb cbs (m : method) e :
  endStateQueue (self w) = endValue :: endStates →
  transitionQueue (self w) = tr :: trs →
  callbackQueue (self w) = cb :: cbs →
  select_method (transitionMethods w) tr = EngineClass m →
  engine_for (self w) m endValue = Some e →
  _loadNext w =
    Ok (with_self
          (mkTransitionable trs endStates cbs (state (self w))
             (drive (now w) (state (self w)) (velocity (self w)) endValue tr e).2
             cb
             (Some (drive (now w) (state (self w)) (velocity (self w)) endValue tr e).1)
             (Some m)
             (_state (self w)) (_dirty (self w))) w).
Proof.
  intros He Ht Hc Hsel Hfor. unfold _loadNext. rewrite He, Ht, Hc. cbn.
  rewrite Hsel, Hfor.
  by destruct (drive (now w) (state (self w)) (velocity (self w)) endValue tr e).
Qed.

Lemma _loadNext_throws w endValue endStates tr trs (name : string) :
  endStateQueue (self w) = endValue :: endStates →
  transitionQueue (self w) = tr :: trs →
  select_method (transitionMethods w) tr = PrototypeMember name →
  _loadNext w = Fail TypeError.
Proof.
  intros He Ht Hsel. unfold _loadNext. rewrite He, Ht. cbn.
  destruct (shift (callbackQueue (self w))). by rewrite Hsel.
Qed.

Lemma begin_transition_facts w :
  transitionMethods (begin_transition w) = transitionMethods w
  ∧ now (begin_transition w) = now w
  ∧ dirtyQueue (begin_transition w) = dirtyQueue w
  ∧ state (self (begin_transition w)) = state (self w)
  ∧ _dirty (self (begin_transition w)) = _dirty (self w)
  ∧ _callback (self (begin_transition w)) = _callback (self w).
Proof. unfold begin_transition. by destruct (isActive w). Qed.

Lemma begin_transition_wf w : wf w = true → wf (begin_transition w) = true.
Proof.
  intros Hwf. unfold begin_transition. destruct (isActive w); [|exact Hwf].
  reflexivity.
Qed.

(** On a well-formed instance, [set] with a transition whose curve selects
    an engine class loads it at once: the queues are empty again when it
    returns. *)
Lemma set_transition_loaded w v tr cb (m : method) :
  wf w = true →
  select_method (transitionMethods w) tr = EngineClass m →
  ∃ base w',
    engine_for (self (begin_transition w)) m v = Some base
    ∧ set v (Some tr) cb w = Ok w'
    ∧ self w' =
        mkTransitionable [] [] [] (state (self w))
          (drive (now w) (state (self w)) (velocity (self (begin_transition w)))
             v tr base).2
          cb
          (Some (drive (now w) (state (self w))
                   (velocity (self (begin_transition w))) v tr base).1)
          (Some m)
          (_state (self (begin_transition w))) (_dirty (self w))
    ∧ trace w' = trace (begin_transition w)
    ∧ dirtyQueue w' = dirtyQueue w
    ∧ transitionMethods w' = transitionMethods w
    ∧ now w' = now w
    ∧ wf w' = true.
Proof.
  intros Hwf Hsel. pose proof (begin_transition_wf w Hwf) as Hwf'.
  apply wf_spec in Hwf' as (Ht & He & Hc & Heng).
  destruct (begin_transition_facts w) as (Htm & Hnow & Hdq & Hst & Hd & _).
  destruct (engine_for_is_Some (self (begin_transition w)) m v Heng)
    as [base Hbase].
  exists base. eexists. split; [exact Hbase|].
  split.
  { unfold set, set_with.
    erewrite (_loadNext_loaded (enqueue v tr cb (begin_transition w)) v [] tr []
                cb [] m).
    - reflexivity.
    - cbn. by rewrite He.
    - cbn. by rewrite Ht.
    - cbn. by rewrite Hc.
    - cbn. by rewrite Htm.
    - exact Hbase. }
  cbn. rewrite Htm, Hnow, Hdq, Hst, Hd. repeat split; reflexivity.
Qed.

(** With a curve that selects a member of [Object.prototype], it throws. *)
Lemma set_transition_throws w v tr cb (name : string) :
  wf w = true →
  select_method (transitionMethods w) tr = PrototypeMember name →
  set v (Some tr) cb w = Fail TypeError.
Proof.
  intros Hwf Hsel. pose proof (begin_transition_wf w Hwf) as Hwf'.
  apply wf_spec in Hwf' as (Ht & He & Hc & Heng).
  destruct (begin_transition_facts w) as (Htm & _).
  unfold set, set_with.
  apply (_loadNext_throws _ v [] tr [] name).
  - cbn. by rewrite He.
  - cbn. by rewrite Ht.
  - cbn. by rewrite Htm.
Qed.

Lemma isActive_spec w : isActive w = true ↔ _state (self w) = UPDATE.
Proof. unfold isActive. apply bool_decide_eq_true. Qed.

(** C5: [set] with a transition is the loader run after the three pushes,
    themselves run after the first step, which is [halt] when the instance
    is active, that is, when its state is UPDATE: no [start] is emitted,
    the state stays UPDATE, and the loader finds no velocity and no engine,
    so that it drives a new engine from the frozen state.  Otherwise the
    first step sets START, registers with the ticker and emits [start] with
    the current state, and the loader sees the velocity and the engine that
    were there.  In both cases the triple is loaded when [set] returns,
    provided the curve selects an engine class; when it selects a member of
    [Object.prototype] the loader, run after the same first step, throws. *)
Theorem set_transition_halts_or_starts w endState tr cb :
  wf w = true →
  (isActive w = true ↔ _state (self w) = UPDATE)
  ∧ set endState (Some tr) cb w
    = _loadNext (enqueue endState tr cb
                   (if isActive w then halt w
                    else log [ClockRegister; Emit EvStart (state (self w))]
                           (with_self (with_state_ START (self w)) w)))
  ∧ match select_method (transitionMethods w) tr with
    | EngineClass m =>
        ∃ w', set endState (Some tr) cb w = Ok w'
          ∧ _callback (self w') = cb
          ∧ state (self w') = state (self w)
          ∧ transitionQueue (self w') = []
          ∧ endStateQueue (self w') = []
          ∧ callbackQueue (self w') = []
          ∧ _currentMethod (self w') = Some m
          ∧ (isActive w = true →
               _state (self w') = UPDATE
               ∧ trace w' = trace w
               ∧ velocity (self w') = None
               ∧ _engineInstance (self w')
                 = Some (engine_set (now w) endState tr
                           (engine_reset (state (self w)) None
                              (construct m endState))))
          ∧ (isActive w = false →
               _state (self w') = START
               ∧ trace w' = trace w ++ [ClockRegister; Emit EvStart (state (self w))]
               ∧ ∃ base,
                   engine_for (self w) m endState = Some base
                   ∧ _engineInstance (self w')
                     = Some (drive (now w) (state (self w)) (velocity (self w))
                               endState tr base).1
                   ∧ velocity (self w')
                     = (drive (now w) (state (self w)) (velocity (self w))
                          endState tr base).2)
    | PrototypeMember _ | Undefined =>
        set endState (Some tr) cb w = Fail TypeError
    end.
Proof.
  intros Hwf. split; [apply isActive_spec|]. split; [reflexivity|].
  destruct (select_method (transitionMethods w) tr) as [m|name|] eqn:Hsel.
  - destruct (set_transition_loaded w endState tr cb m Hwf Hsel)
      as (base & w' & Hbase & Hset & Hself & Htr & _).
    exists w'. split; [exact Hset|]. rewrite Hself, Htr. cbn.
    do 6 (split; [reflexivity|]).
    split; intros Hact; revert Hbase; unfold begin_transition; rewrite Hact.
    + apply isActive_spec in Hact. cbn. unfold engine_for. cbn.
      case_decide; [discriminate|]. intros [= <-].
      by repeat split.
    + cbn. intros Hbase. do 2 (split; [reflexivity|]).
      exists base. by repeat split.
  - exact (set_transition_throws w endState tr cb name Hwf Hsel).
  - by destruct (select_method_defined (transitionMethods w) tr).
Qed.

(** C6: the loader takes the engine kind registered under the curve of the
    transition, and TweenTransition when the curve is missing, falsy or
    names nothing at all in the registry.  When that kind is the current
    one, the current engine instance is the one driven; otherwise a new
    instance is made, a single-value engine of that kind when the end value
    is a plain number or its length is within the kind's SUPPORTS_MULTIPLE,
    and a MultipleTransition around that kind if not.  A curve that is not
    registered but names a member of [Object.prototype] selects that
    member instead of TweenTransition, and the loader throws. *)
Theorem loader_engine_choice w endValue endStates tr trs cb cbs :
  endStateQueue (self w) = endValue :: endStates →
  transitionQueue (self w) = tr :: trs →
  callbackQueue (self w) = cb :: cbs →
  (is_Some (_currentMethod (self w)) → is_Some (_engineInstance (self w))) →
  select_method (transitionMethods w) tr
  = match curve tr with
    | Some c =>
        if decide (c = "") then EngineClass TweenTransition
        else
          match transitionMethods w !! c with
          | Some m => EngineClass m
          | None =>
              if inherited c then PrototypeMember c
              else EngineClass TweenTransition
          end
    | None => EngineClass TweenTransition
    end
  ∧ match select_method (transitionMethods w) tr with
    | EngineClass m =>
        ∃ base w',
          (_currentMethod (self w) = Some m → _engineInstance (self w) = Some base)
          ∧ (_currentMethod (self w) ≠ Some m →
               (single_value endValue m → base = new_method m)
               ∧ (¬ single_value endValue m → base = new_MultipleTransition m))
          ∧ _loadNext w = Ok w'
          ∧ _currentMethod (self w') = Some m
          ∧ _engineInstance (self w')
            = Some (drive (now w) (state (self w)) (velocity (self w))
                      endValue tr base).1
    | PrototypeMember _ | Undefined => _loadNext w = Fail TypeError
    end.
Proof.
  intros He Ht Hc Heng. split; [apply select_method_spec|].
  destruct (select_method (transitionMethods w) tr) as [m|name|] eqn:Hsel.
  - destruct (engine_for_is_Some (self w) m endValue Heng) as [base Hbase].
    exists base. eexists.
    split.
    { intros Hm. revert Hbase. unfold engine_for.
      case_decide; [done|contradiction]. }
    split.
    { intros Hm. revert Hbase. unfold engine_for, construct.
      case_decide; [contradiction|]. intros [= <-].
      split; intros Hs.
      - apply fits_single_spec in Hs. by rewrite Hs.
      - destruct (fits_single endValue _) eqn:Hf; [|reflexivity].
        apply fits_single_spec in Hf. contradiction. }
    split; [exact (_loadNext_loaded w _ _ _ _ _ _ m base He Ht Hc Hsel Hbase)|].
    split; reflexivity.
  - exact (_loadNext_throws w _ _ _ _ name He Ht Hsel).
  - by destruct (select_method_defined (transitionMethods w) tr).
Qed.

(** C8: a transition whose curve is missing, is the empty string or is not
    a key of the registry, and is not the name of a member of
    [Object.prototype], selects TweenTransition, and [set] with it returns
    normally, with TweenTransition as the current engine kind.  When the
    unregistered curve is the name of such a member, that member is
    selected instead and [set] throws. *)
Theorem unknown_curve_defaults_to_tween w endState tr cb :
  wf w = true →
  (curve tr = None ∨ curve tr = Some ""
   ∨ ∃ c, curve tr = Some c ∧ transitionMethods w !! c = None) →
  if inherited_curve tr then
    (∃ c, curve tr = Some c
          ∧ select_method (transitionMethods w) tr = PrototypeMember c)
    ∧ set endState (Some tr) cb w = Fail TypeError
  else
    select_method (transitionMethods w) tr = EngineClass TweenTransition
    ∧ ∃ w', set endState (Some tr) cb w = Ok w'
        ∧ _currentMethod (self w') = Some TweenTransition
        ∧ is_Some (_engineInstance (self w'))
        ∧ wf w' = true.
Proof.
  intros Hwf Hcurve.
  pose proof (select_method_spec (transitionMethods w) tr) as Hspec.
  unfold inherited_curve.
  destruct (curve tr) as [c|] eqn:Hc.
  - assert (Hsel : select_method (transitionMethods w) tr
                   = if inherited c then PrototypeMember c
                     else EngineClass TweenTransition).
    { destruct Hcurve as [Hnone | [Hempty | (c' & Hc' & Hfree)]].
      - discriminate.
      - injection Hempty as ->. rewrite Hspec. reflexivity.
      - injection Hc' as <-. rewrite Hspec, Hfree.
        case_decide as Hempty; [by subst c|reflexivity]. }
    destruct (inherited c) eqn:Hin.
    + split; [eauto|].
      exact (set_transition_throws w endState tr cb c Hwf Hsel).
    + split; [exact Hsel|].
      destruct (set_transition_loaded w endState tr cb _ Hwf Hsel)
        as (base & w' & _ & Hset & Hself & _ & _ & _ & _ & Hwf').
      exists w'. split; [exact Hset|]. rewrite Hself. cbn.
      split; [reflexivity|]. split; [eauto|exact Hwf'].
  - split; [exact Hspec|].
    destruct (set_transition_loaded w endState tr cb _ Hwf Hspec)
      as (base & w' & _ & Hset & Hself & _ & _ & _ & _ & Hwf').
    exists w'. split; [exact Hset|]. rewrite Hself. cbn.
    split; [reflexivity|]. split; [eauto|exact Hwf'].
Qed.

(** ** The invariant is kept *)

Lemma set_transition_wf w v tr cb w' :
  wf w = true → set v (Some tr) cb w = Ok w' → wf w' = true.
Proof.
  intros Hwf Hset.
  destruct (select_method (transitionMethods w) tr) as [m|name|] eqn:Hsel.
  - destruct (set_transition_loaded w v tr cb m Hwf Hsel)
      as (base & w'' & _ & Hset' & _ & _ & _ & _ & _ & Hwf'').
    congruence.
  - rewrite (set_transition_throws w v tr cb name Hwf Hsel) in Hset.
    discriminate.
  - by destruct (select_method_defined (transitionMethods w) tr).
Qed.

Lemma set_with_wf (inv : World → result) v (t : option transition) cb w w' :
  (∀ w0 w1, wf w0 = true → inv w0 = Ok w1 → wf w1 = true) →
  wf w = true →
  set_with inv v t cb w = Ok w' →
  wf w' = true.
Proof.
  intros Hinv Hwf. destruct t as [tr|].
  - exact (set_transition_wf w v tr cb w' Hwf).
  - unfold set_with. cbn.
    destruct (_dirty (self w)), cb as [k|]; cbn;
      try (apply Hinv; reflexivity); by intros [= <-].
Qed.

Lemma run_callback_wf : ∀ (k : callback) w w',
  wf w = true → run_callback k w = Ok w' → wf w' = true.
Proof.
  fix IH 1. intros [id|values transitions k] w w' Hwf.
  - by intros [= <-].
  - cbn. revert transitions w w' Hwf.
    induction values as [|v values IHv]; intros transitions w w' Hwf.
    + destruct k as [k'|]; [by apply IH|]. by intros [= <-].
    + apply set_with_wf; [|exact Hwf]. intros w0 w1 Hwf0. by apply IHv.
Qed.

Lemma invoke_wf cb w w' :
  wf w = true → invoke cb w = Ok w' → wf w' = true.
Proof.
  intros Hwf. destruct cb as [k|]; [by apply run_callback_wf|].
  by intros [= <-].
Qed.

Lemma set_wf v (t : option transition) cb w w' :
  wf w = true → set v t cb w = Ok w' → wf w' = true.
Proof.
  intros Hwf. apply set_with_wf; [|exact Hwf]. intros w0 w1. apply invoke_wf.
Qed.

Lemma iterate_wf values transitions cb w w' :
  wf w = true → iterate values transitions cb w = Ok w' → wf w' = true.
Proof.
  intros Hwf. destruct values as [|v values]; [by apply invoke_wf|].
  by apply set_wf.
Qed.

Lemma update_wf w :
  wf w = true → ∃ w', update w = Ok w' ∧ wf w' = true.
Proof.
  intros Hwf. destruct (_engineInstance (self w)) as [e|] eqn:He.
  - destruct (engine_get (now w) e) as [[sampled e'] hook] eqn:Hget.
    pose proof Hwf as Hwf0. apply wf_spec in Hwf0 as (Ht & Hq & Hc & _).
    rewrite (update_sampled w e sampled e' hook He Hq Hget).
    eexists. split; [reflexivity|].
    apply wf_spec. destruct (engine_isActive e'); cbn; eauto.
  - rewrite (update_no_engine w He). eexists. split; [reflexivity|exact Hwf].
Qed.

Lemma run_deferred_wf d w w' :
  wf w = true → run_deferred d w = Ok w' → wf w' = true.
Proof.
  intros Hwf. destruct d; cbn.
  - by intros [= <-].
  - destruct (_callback (self w)) as [k|].
    + by apply run_callback_wf.
    + by intros [= <-].
Qed.

Lemma flush_wf fuel : ∀ w w',
  wf w = true → flush fuel w = Ok w' → wf w' = true.
Proof.
  induction fuel as [|fuel IH]; intros w w' Hwf; cbn;
    (destruct (dirtyQueue w) as [|d q] eqn:Hq; [by intros [= <-]|]).
  - discriminate.
  - destruct (run_deferred d (dirtyQueue_shift w)) as [w1|e] eqn:Hd;
      [|discriminate].
    cbn. apply IH. exact (run_deferred_wf d (dirtyQueue_shift w) w1 Hwf Hd).
Qed.

Lemma run_call_wf (c : call) w w' :
  wf w = true → run_call c w = Ok w' → wf w' = true.
Proof.
  intros Hwf. destruct c; cbn.
  - by apply set_wf.
  - destruct (update_wf w Hwf) as (w1 & -> & Hwf1). by intros [= <-].
  - by intros [= <-].
  - by intros [= <-].
  - by apply iterate_wf.
  - intros [= <-]. unfold register.
    by destruct (has_property (transitionMethods w) name).
  - intros [= <-]. unfold unregister.
    by destruct (has_property (transitionMethods w) name).
  - by apply flush_wf.
  - by intros [= <-].
Qed.

(** Every call that returns leaves a well-formed world well formed. *)
Lemma run_calls_wf (cs : list call) : ∀ w w',
  wf w = true → run_calls cs w = Ok w' → wf w' = true.
Proof.
  induction cs as [|c cs IH]; intros w w' Hwf; cbn; [by intros [= <-]|].
  destruct (run_call c w) as [w1|e] eqn:Hc; [|discriminate].
  cbn. apply IH. exact (run_call_wf c w w1 Hwf Hc).
Qed.

Lemma new_world_wf (start : option value) : wf (new_world start) = true.
Proof. reflexivity. Qed.

(** Whatever is called on a new instance, the world reached is well
    formed. *)
Lemma reachable_wf (start : option value) (cs : list call) w :
  run_calls cs (new_world start) = Ok w → wf w = true.
Proof. apply run_calls_wf, new_world_wf. Qed.

(** ** update *)

(** C4: when the engine sampled by [update] is no longer active, [update]
    returns with the state still UPDATE, the pending callback untouched and
    nothing but the [update] event emitted; the terminal sequence is one
    more entry at the back of the deferred queue.  Whenever that entry
    runs, it sets END, unregisters, emits [end] with the state of that
    moment, and, if a callback is pending, invokes it on an instance whose
    pending callback has been cleared; a second run of the entry therefore
    finds nothing to invoke. *)
Theorem update_defers_terminal w e sampled e' hook :
  wf w = true →
  _engineInstance (self w) = Some e →
  engine_get (now w) e = (sampled, e', hook) →
  engine_isActive e' = false →
  (∃ w', update w = Ok w'
     ∧ _state (self w') = UPDATE
     ∧ state (self w') = sampled
     ∧ _callback (self w') = _callback (self w)
     ∧ trace w' = trace w ++ [Emit EvUpdate sampled]
     ∧ dirtyQueue w' = dirtyQueue w ++ [UpdateTerminal])
  ∧ (∀ wq,
       run_deferred UpdateTerminal wq
       = invoke (_callback (self wq))
           (with_self (with_callback None (with_state_ END (self wq)))
              (log [ClockUnregister; Emit EvEnd (state (self wq))] wq)))
  ∧ (∀ wq id,
       _callback (self wq) = Some (CbUser id) →
       ∃ w1 w2,
         run_deferred UpdateTerminal wq = Ok w1
         ∧ _callback (self w1) = None
         ∧ trace w1 = trace wq ++ [ClockUnregister; Emit EvEnd (state (self wq));
                                   Called id]
         ∧ run_deferred UpdateTerminal w1 = Ok w2
         ∧ trace w2 = trace w1 ++ [ClockUnregister; Emit EvEnd (state (self wq))]).
Proof.
  intros Hwf He Hget Hdone.
  apply wf_spec in Hwf as (_ & Hq & _).
  split.
  { rewrite (update_sampled w e sampled e' hook He Hq Hget), Hdone.
    eexists. split; [reflexivity|]. by repeat split. }
  split.
  { intros wq. unfold run_deferred. cbn.
    destruct wq as [[tq eq cq st vel [k|] eng cm s d] tm dq tr now_];
      reflexivity. }
  intros wq id Hcb. unfold run_deferred. cbn. rewrite Hcb. cbn.
  eexists. eexists. split; [reflexivity|]. cbn.
  split; [reflexivity|]. split; [by rewrite <- app_assoc|].
  split; reflexivity.
Qed.

(** ** iterate *)

Lemma run_callback_iterate values transitions k :
  run_callback (CbIterate values transitions k) = iterate values transitions k.
Proof. by destruct values. Qed.








(** ** Instantaneous set *)

Lemma count_end_app (evs evs' : list event) :
  count_end (evs ++ evs') = (count_end evs + count_end evs')%nat.
Proof. induction evs as [|ev evs IH]; cbn; [done|]. rewrite IH. lia. Qed.

(** The world an instantaneous [set] leaves before it calls its callback. *)
Lemma set_instant_dirty w v :
  _dirty (self w) = true →
  set v None None w =
    Ok (reset v None (with_self (with_state_ (interrupt (_state (self w))) (self w)) w)).
Proof. intros Hd. unfold set, set_with. cbn. by rewrite Hd. Qed.

Lemma set_instant_clean w v :
  _dirty (self w) = false →
  set v None None w =
    Ok (mkWorld
          (mkTransitionable [] [] [] v None (_callback (self w)) None None
             START true)
          (transitionMethods w) (dirtyQueue w ++ [DirtyCleanup])
          (trace w ++ [ClockRegister; Emit EvStart v]) (now w)).
Proof. intros Hd. unfold set, set_with. cbn. by rewrite Hd. Qed.

(** C2, as the code has it: an instantaneous [set] on an instance that is
    not yet marked dirty returns in state START whatever the state was
    (UPDATE included), having registered, emitted [start] and deferred the
    cleanup that sets END; on an instance already marked dirty it returns
    with NONE and END turned into START and UPDATE turned into END.  In both
    cases the engine is dropped and the pending callback is neither invoked
    nor cleared. *)
Theorem instantaneous_set_activity w v :
  ∃ w', set v None None w = Ok w'
    ∧ state (self w') = v
    ∧ _engineInstance (self w') = None
    ∧ _callback (self w') = _callback (self w)
    ∧ (_dirty (self w) = false →
         _state (self w') = START
         ∧ trace w' = trace w ++ [ClockRegister; Emit EvStart v]
         ∧ dirtyQueue w' = dirtyQueue w ++ [DirtyCleanup])
    ∧ (_dirty (self w) = true →
         (_state (self w) = NONE → _state (self w') = START)
         ∧ (_state (self w) = END → _state (self w') = START)
         ∧ (_state (self w) = UPDATE → _state (self w') = END)
         ∧ (_state (self w) = START → _state (self w') = START)
         ∧ trace w' = trace w
         ∧ dirtyQueue w' = dirtyQueue w)
    ∧ ∃ w'', run_deferred DirtyCleanup w' = Ok w''
         ∧ _state (self w'') = END
         ∧ trace w'' = trace w' ++ [ClockUnregister; Emit EvEnd v].
Proof.
  destruct (_dirty (self w)) eqn:Hd.
  - rewrite (set_instant_dirty w v Hd). eexists. split; [reflexivity|].
    cbn. repeat split; try congruence; try (intros ->; reflexivity).
    eexists. split; [reflexivity|]. split; reflexivity.
  - rewrite (set_instant_clean w v Hd). eexists. split; [reflexivity|].
    cbn. repeat split; try congruence.
    eexists. split; [reflexivity|]. split; reflexivity.
Qed.

(** Instantaneous sets on a dirty instance only replace the value. *)
Lemma set_all_dirty vs w :
  _dirty (self w) = true →
  ∃ w', set_all vs w = Ok w'
    ∧ _dirty (self w') = true
    ∧ state (self w') = default (state (self w)) (last vs)
    ∧ trace w' = trace w
    ∧ dirtyQueue w' = dirtyQueue w.
Proof.
  revert w. induction vs as [|v vs IH]; intros w Hd.
  - exists w. by repeat split.
  - cbn [set_all]. rewrite (set_instant_dirty w v Hd). cbn [bind].
    edestruct IH as (w' & Hrun & Hd' & Hst & Htr & Hq); [|rewrite Hrun].
    { exact Hd. }
    exists w'. split; [reflexivity|]. split; [exact Hd'|].
    split; [|by split].
    rewrite Hst. cbn. rewrite last_cons. by destruct (last vs).
Qed.

Lemma flush_one_cleanup fuel w :
  dirtyQueue w = [DirtyCleanup] →
  flush (S fuel) w =
    Ok (mkWorld (with_state_ END (with_dirty false (self w)))
          (transitionMethods w) []
          (trace w ++ [ClockUnregister; Emit EvEnd (state (self w))]) (now w)).
Proof.
  intros Hq. cbn [flush]. rewrite Hq. unfold dirtyQueue_shift. rewrite Hq.
  cbn. by destruct fuel.
Qed.

(** C3: two or more instantaneous [set] calls issued in a row succeed; if
    the deferred queue held only what the dirty flag announces when they
    began (nothing on an instance not marked dirty, the one cleanup of an
    earlier instantaneous [set] of the same phase otherwise), the deferred
    phase then emits exactly one [end] event, carrying the last value set,
    and leaves the instance in state END holding that value, with an empty
    queue. *)
Theorem coalesced_end_event (vs : list value) w :
  (2 ≤ length vs)%nat →
  dirtyQueue w = (if _dirty (self w) then [DirtyCleanup] else []) →
  ∃ first final w1 w2,
    head vs = Some first ∧ last vs = Some final
    ∧ set_all vs w = Ok w1
    ∧ (∀ fuel, flush (S fuel) w1 = Ok w2)
    ∧ trace w2 = trace w
                 ++ (if _dirty (self w) then []
                     else [ClockRegister; Emit EvStart first])
                 ++ [ClockUnregister; Emit EvEnd final]
    ∧ count_end (trace w2) = S (count_end (trace w))
    ∧ state (self w2) = final
    ∧ _state (self w2) = END
    ∧ _dirty (self w2) = false
    ∧ dirtyQueue w2 = [].
Proof.
  intros Hlen Hq. destruct vs as [|v vs]; [cbn in Hlen; lia|].
  assert (Hlast : last (v :: vs) = Some (default v (last vs))).
  { rewrite last_cons. by destruct (last vs). }
  exists v, (default v (last vs)).
  destruct (_dirty (self w)) eqn:Hd.
  - destruct (set_all_dirty (v :: vs) w Hd) as (w1 & Hrun & Hd1 & Hst & Htr & Hq1).
    rewrite Hq in Hq1. rewrite Hlast in Hst. cbn in Hst.
    exists w1. eexists.
    split; [reflexivity|]. split; [exact Hlast|]. split; [exact Hrun|].
    split; [intros fuel; by rewrite (flush_one_cleanup fuel w1 Hq1)|].
    cbn. rewrite Htr, Hst. repeat split.
    rewrite count_end_app. cbn. lia.
  - cbn [set_all]. rewrite (set_instant_clean w v Hd). cbn [bind].
    edestruct (set_all_dirty vs) as (w1 & Hrun & Hd1 & Hst & Htr & Hq1);
      [|rewrite Hrun].
    { reflexivity. }
    cbn in Hst, Htr, Hq1. rewrite Hq in Hq1. cbn in Hq1.
    exists w1. eexists.
    split; [reflexivity|]. split; [exact Hlast|]. split; [reflexivity|].
    split; [intros fuel; by rewrite (flush_one_cleanup fuel w1 Hq1)|].
    cbn. rewrite Htr, Hst, <- app_assoc. cbn.
    repeat split.
    rewrite count_end_app. cbn. lia.
Qed.

(** ** halt *)

(** C10: a second [halt] changes nothing: the whole world, and with it the
    state value, velocity, queues, engine instance, engine kind and activity
    state, is the one the first [halt] left. *)
Theorem halt_idempotent w : halt (halt w) = halt w.
Proof. reflexivity. Qed.

(** C1, as the code has it: [halt] keeps the value that [get] returned just
    before, which is the value stored by the last [update] and not a new
    sample of the engine; it drops the engine, its kind, the velocity and
    the queued entries, and leaves the activity state, the pending deferred
    work and the trace (so no [end] is emitted) as they were.  When the
    engine's sample at that instant is the stored value, [update] would have
    produced the same value. *)
Theorem halt_keeps_stored_state w :
  get (halt w) = get w
  ∧ _engineInstance (self (halt w)) = None
  ∧ _currentMethod (self (halt w)) = None
  ∧ velocity (self (halt w)) = None
  ∧ endStateQueue (self (halt w)) = []
  ∧ transitionQueue (self (halt w)) = []
  ∧ callbackQueue (self (halt w)) = []
  ∧ _state (self (halt w)) = _state (self w)
  ∧ trace (halt w) = trace w
  ∧ dirtyQueue (halt w) = dirtyQueue w
  ∧ (∀ e, _engineInstance (self w) = Some e →
          endStateQueue (self w) = [] →
          (engine_get (now w) e).1.1 = get w →
          ∃ w', update w = Ok w' ∧ get w' = get (halt w)).
Proof.
  repeat split.
  intros e He Hq Hsample.
  destruct (engine_get (now w) e) as [[sampled e'] hook] eqn:Hget.
  simpl in Hsample. rewrite (update_sampled w e sampled e' hook He Hq Hget).
  eexists. split; [reflexivity|].
  destruct (engine_isActive e'); exact Hsample.
Qed.

End Properties.

Section SampleRuns.
Local Existing Instance sample_api.

Lemma world_after_ok (cs : list call) :
  is_ok (run_sample cs (new_world None)) = true →
  run_sample cs (new_world None) = Ok (world_after cs).
Proof.
  unfold world_after. by destruct (run_sample cs (new_world None)).
Qed.

Lemma observe_Some {A : Type} (f : World → A) (r : result) (a : A) :
  observe f r = Some a → ∃ w, r = Ok w ∧ f w = a.
Proof. destruct r as [w|]; [|discriminate]. intros [= <-]. by exists w. Qed.

(** C1, as stated, fails: 60 ms into a transition of 100 ms from 0 to 5 that
    was last sampled at 40 ms, [update] would sample 3 from the engine, while
    [halt] followed by [get] returns the value 2 stored by the last sample. *)
Lemma halt_is_not_a_fresh_sample :
  run_sample in_flight_calls (new_world None) = Ok (world_after in_flight_calls)
  ∧ (∃ e, _engineInstance (self (world_after in_flight_calls)) = Some e
          ∧ engine_isActive e = true
          ∧ (engine_get (now (world_after in_flight_calls)) e).1.1 = VNum 3)
  ∧ get (halt (world_after in_flight_calls)) = VNum 2
  ∧ ∃ w', update (world_after in_flight_calls) = Ok w' ∧ get w' = VNum 3.
Proof.
  split; [apply world_after_ok; vm_compute; reflexivity|].
  split.
  { eexists. split; [vm_compute; reflexivity|]. split; vm_compute; reflexivity. }
  split; [vm_compute; reflexivity|].
  apply observe_Some. vm_compute. reflexivity.
Qed.

(** C2, as stated, fails: an instantaneous [set] that interrupts a
    transition being sampled (state UPDATE, instance not marked dirty)
    returns in state START, not END; END is only reached when the deferred
    cleanup runs. *)
Lemma interrupt_returns_in_START :
  run_sample sampled_calls (new_world None) = Ok (world_after sampled_calls)
  ∧ _state (self (world_after sampled_calls)) = UPDATE
  ∧ ∃ w', set (VNum 1) None None (world_after sampled_calls) = Ok w'
      ∧ _state (self w') = START
      ∧ _state (self w') ≠ END.
Proof.
  split; [apply world_after_ok; vm_compute; reflexivity|].
  split; [vm_compute; reflexivity|].
  destruct (observe_Some (λ w, _state (self w))
              (set (VNum 1) None None (world_after sampled_calls)) START)
    as (w' & Hset & Hst); [vm_compute; reflexivity|].
  exists w'. rewrite Hst. by repeat split.
Qed.

(** C3, as stated, fails: when a transition has been sampled to its end
    and its terminal sequence is still deferred, two instantaneous sets
    before the deferred work runs give two [end] events, one from the
    terminal sequence and one from the cleanup. *)
Lemma two_sets_after_completion_end_twice :
  observe dirtyQueue (run_sample completed_calls (new_world None))
  = Some [UpdateTerminal]
  ∧ observe (λ w, _dirty (self w)) (run_sample completed_calls (new_world None))
    = Some false
  ∧ observe trace (run_sample two_sets_after_completion (new_world None))
    = Some [ClockRegister; Emit EvStart (VNum 0); Emit EvUpdate (VNum 5);
            ClockRegister; Emit EvStart (VNum 1);
            ClockUnregister; Emit EvEnd (VNum 2);
            ClockUnregister; Emit EvEnd (VNum 2)]
  ∧ observe (λ w, count_end (trace w))
      (run_sample two_sets_after_completion (new_world None))
    = Some 2%nat.
Proof. repeat split; vm_compute; reflexivity. Qed.

(** C6: with nothing registered, the loader does not take TweenTransition
    for the curve [toString]: indexing the registry yields the member of
    that name of [Object.prototype], which is no engine class, and the
    loader throws. *)
Lemma loader_selects_inherited_member :
  endStateQueue (self pushed_toString_world) = [VNum 5]
  ∧ transitionQueue (self pushed_toString_world) = [toString_curve]
  ∧ transitionMethods pushed_toString_world = ∅
  ∧ select_method (transitionMethods pushed_toString_world) toString_curve
    = PrototypeMember "toString"
  ∧ select_method (transitionMethods pushed_toString_world) toString_curve
    ≠ EngineClass TweenTransition
  ∧ _loadNext pushed_toString_world = Fail TypeError.
Proof. repeat split; (reflexivity || discriminate). Qed.

(** C8: with nothing registered, [set] with a spec whose curve is
    [toString] does not fall back to TweenTransition: it throws. *)
Lemma inherited_curve_makes_set_throw :
  transitionMethods (new_world None) !! "toString" = None
  ∧ is_ok (set (VNum 5) (Some toString_curve) None (new_world None)) = false
  ∧ set (VNum 5) (Some toString_curve) None (new_world None) = Fail TypeError.
Proof. repeat split; reflexivity. Qed.

(** C9: on an empty registry, [unregister] returns true for the name
    [toString], which was not registered, and [register] does not add a
    mapping for it, although the name is not in use. *)
Lemma unregister_inherited_name_returns_true :
  transitionMethods (new_world None) = ∅
  ∧ fst (unregister "toString" (new_world None)) = true
  ∧ transitionMethods (register "toString" "SpringTransition" (new_world None))
      !! "toString" = None.
Proof. repeat split; reflexivity. Qed.

(** *** Instances of the theorems on the sample engine *)

Lemma coalesced_end_event_witness :
  (2 ≤ length [VNum 1; VNum 2])%nat
  ∧ dirtyQueue (new_world None) = []
  ∧ ∃ first final w1 w2,
      head [VNum 1; VNum 2] = Some first ∧ last [VNum 1; VNum 2] = Some final
      ∧ set_all [VNum 1; VNum 2] (new_world None) = Ok w1
      ∧ (∀ fuel, flush (S fuel) w1 = Ok w2)
      ∧ trace w2 = [] ++ [ClockRegister; Emit EvStart first]
                   ++ [ClockUnregister; Emit EvEnd final]
      ∧ count_end (trace w2) = 1%nat
      ∧ state (self w2) = final
      ∧ _state (self w2) = END
      ∧ _dirty (self w2) = false
      ∧ dirtyQueue w2 = [].
Proof.
  split; [reflexivity|]. split; [reflexivity|].
  apply (coalesced_end_event [VNum 1; VNum 2] (new_world None));
    reflexivity.
Defined.

Lemma update_defers_terminal_witness :
  wf (world_after finishing_calls) = true
  ∧ ∃ w', update (world_after finishing_calls) = Ok w'
      ∧ _state (self w') = UPDATE
      ∧ state (self w') = VNum 5
      ∧ _callback (self w') = _callback (self (world_after finishing_calls))
      ∧ trace w' = trace (world_after finishing_calls) ++ [Emit EvUpdate (VNum 5)]
      ∧ dirtyQueue w' = dirtyQueue (world_after finishing_calls) ++ [UpdateTerminal].
Proof.
  split; [reflexivity|].
  apply (update_defers_terminal (world_after finishing_calls)
           (mkTween "TweenTransition" false (VNum 0) (VNum 0) (VNum 5) 0 100 true None)
           (VNum 5)
           (mkTween "TweenTransition" false (VNum 5) (VNum 0) (VNum 5) 0 100 false None)
           true); reflexivity.
Defined.

Lemma set_transition_halts_or_starts_witness :
  wf (world_after sampled_calls) = true
  ∧ isActive (world_after sampled_calls) = true
  ∧ ∃ w', set (VNum 9) (Some (linear 50)) None (world_after sampled_calls) = Ok w'
      ∧ _state (self w') = UPDATE
      ∧ trace w' = trace (world_after sampled_calls)
      ∧ velocity (self w') = None
      ∧ state (self w') = VNum 2.
Proof.
  split; [reflexivity|]. split; [reflexivity|].
  pose proof (set_transition_halts_or_starts (world_after sampled_calls)
                (VNum 9) (linear 50) None eq_refl) as (_ & _ & Hsel).
  assert (Hm : select_method (transitionMethods (world_after sampled_calls))
                 (linear 50) = EngineClass TweenTransition)
    by (vm_compute; reflexivity).
  rewrite Hm in Hsel.
  destruct Hsel as (w' & Hset & _ & Hst & _ & _ & _ & _ & Hact & _).
  destruct (Hact eq_refl) as (Hs & Htr & Hvel & _).
  exists w'. repeat split; assumption.
Defined.

Lemma loader_engine_choice_witness :
  endStateQueue (self pushed_world) = [VArr [1; 2; 3]]
  ∧ transitionQueue (self pushed_world) = [linear 100]
  ∧ callbackQueue (self pushed_world) = [None]
  ∧ ∃ w', _loadNext pushed_world = Ok w'
      ∧ _currentMethod (self w') = Some "TweenTransition"
      ∧ _engineInstance (self w')
        = Some (tween_set 0 (VArr [1; 2; 3]) (linear 100)
                  (tween_reset (VNum 0) None (tween_new true "TweenTransition"))).
Proof.
  split; [reflexivity|]. split; [reflexivity|]. split; [reflexivity|].
  destruct (loader_engine_choice pushed_world (VArr [1; 2; 3]) [] (linear 100)
              [] None [] eq_refl eq_refl eq_refl)
    as (_ & Hsel).
  { intros [m Hm]. discriminate Hm. }
  assert (Hm : select_method (transitionMethods pushed_world) (linear 100)
               = EngineClass TweenTransition)
    by (vm_compute; reflexivity).
  rewrite Hm in Hsel.
  destruct Hsel as (base & w' & _ & Hnew & Hload & Hkind & Heng).
  exists w'. split; [exact Hload|].
  split; [exact Hkind|]. rewrite Heng.
  destruct Hnew as [_ Hmulti]; [discriminate|].
  rewrite Hmulti; [reflexivity|].
  intros [[n Hn]|(len & k & Hlen & Hk & Hle)]; [discriminate|].
  cbn in Hlen, Hk. injection Hlen as <-. injection Hk as <-. lia.
Defined.

Lemma unknown_curve_defaults_to_tween_witness :
  wf (new_world None) = true
  ∧ transitionMethods (new_world None) !! "nosuchcurve" = None
  ∧ transitionMethods (new_world None) !! "toString" = None
  ∧ (select_method (transitionMethods (new_world None)) unknown_curve
     = EngineClass TweenTransition
     ∧ ∃ w', set (VNum 5) (Some unknown_curve) None (new_world None) = Ok w'
         ∧ _currentMethod (self w') = Some TweenTransition
         ∧ is_Some (_engineInstance (self w'))
         ∧ wf w' = true)
  ∧ ((∃ c, curve toString_curve = Some c
           ∧ select_method (transitionMethods (new_world None)) toString_curve
             = PrototypeMember c)
     ∧ set (VNum 5) (Some toString_curve) None (new_world None)
       = Fail TypeError).
Proof.
  split; [reflexivity|]. split; [reflexivity|]. split; [reflexivity|].
  split.
  - exact (unknown_curve_defaults_to_tween (new_world None) (VNum 5)
             unknown_curve None eq_refl
             (or_intror (or_intror
                (ex_intro _ "nosuchcurve" (conj eq_refl eq_refl))))).
  - exact (unknown_curve_defaults_to_tween (new_world None) (VNum 5)
             toString_curve None eq_refl
             (or_intror (or_intror
                (ex_intro _ "toString" (conj eq_refl eq_refl))))).
Defined.

Lemma halt_keeps_stored_state_witness :
  get (halt (world_after in_flight_calls)) = VNum 2
  ∧ get (world_after in_flight_calls) = VNum 2
  ∧ _engineInstance (self (halt (world_after in_flight_calls))) = None
  ∧ _state (self (halt (world_after in_flight_calls))) = UPDATE
  ∧ ∃ w', update (world_after sampled_calls) = Ok w'
      ∧ get w' = get (halt (world_after sampled_calls)).
Proof.
  destruct (halt_keeps_stored_state (world_after in_flight_calls))
    as (Hget & Heng & _ & _ & _ & _ & _ & Hst & _).
  destruct (halt_keeps_stored_state (world_after sampled_calls))
    as (_ & _ & _ & _ & _ & _ & _ & _ & _ & _ & Hsame).
  split; [rewrite Hget; vm_compute; reflexivity|].
  split; [vm_compute; reflexivity|].
  split; [exact Heng|].
  split; [rewrite Hst; vm_compute; reflexivity|].
  apply (Hsame (mkTween "TweenTransition" false (VNum 2) (VNum 0) (VNum 5)
                  0 100 true None));
    vm_compute; reflexivity.
Defined.

Lemma instantaneous_set_activity_witness :
  _dirty (self (world_after sampled_calls)) = false
  ∧ _state (self (world_after sampled_calls)) = UPDATE
  ∧ ∃ w', set (VNum 1) None None (world_after sampled_calls) = Ok w'
      ∧ state (self w') = VNum 1
      ∧ _state (self w') = START
      ∧ dirtyQueue w' = dirtyQueue (world_after sampled_calls) ++ [DirtyCleanup].
Proof.
  split; [vm_compute; reflexivity|]. split; [vm_compute; reflexivity|].
  destruct (instantaneous_set_activity (world_after sampled_calls) (VNum 1))
    as (w' & Hset & Hv & _ & _ & Hclean & _).
  destruct Hclean as (Hst & _ & Hq); [vm_compute; reflexivity|].
  exists w'. repeat split; assumption.
Defined.


Lemma register_unregister_contract_witness :
  transitionMethods (new_world None) !! "spring" = None
  ∧ transitionMethods (register "spring" "SpringTransition" (new_world None))
      !! "spring" = Some "SpringTransition"
  ∧ unregister "spring" (new_world None) = (false, new_world None)
  ∧ transitionMethods (new_world None) !! "toString" = None
  ∧ register "toString" "SpringTransition" (new_world None) = new_world None
  ∧ fst (unregister "toString" (new_world None)) = true.
Proof.
  split; [reflexivity|].
  pose proof (register_unregister_contract "spring" "SpringTransition"
                (new_world None)) as Hreg.
  change (transitionMethods (new_world None) !! "spring") with (@None string)
    in Hreg.
  change (inherited "spring") with false in Hreg.
  destruct Hreg as (Hadd & _ & Hun).
  split; [exact Hadd|]. split; [exact Hun|]. split; [reflexivity|].
  pose proof (register_unregister_contract "toString" "SpringTransition"
                (new_world None)) as Hinh.
  change (transitionMethods (new_world None) !! "toString") with (@None string)
    in Hinh.
  change (inherited "toString") with true in Hinh.
  destruct Hinh as (Hreg & Hun' & _). split; [exact Hreg|exact Hun'].
Defined.

(** [iterate] over three values with one shared spec of 10 ms, sampled
    every 5 ms: three transitions start and end in turn, and the callback
    is called once, after the third has ended. *)
Example iterate_sample_trace :
  observe trace
    (run_sample
       [CallIterate [VNum 1; VNum 2; VNum 3] (Shared (Some (linear 10)))
          (Some (CbUser 7));
        Elapse 5; CallUpdate; Flush 5; Elapse 5; CallUpdate; Flush 5;
        Elapse 5; CallUpdate; Flush 5; Elapse 5; CallUpdate; Flush 5;
        Elapse 5; CallUpdate; Flush 5; Elapse 5; CallUpdate; Flush 5]
       (new_world None))
  = Some
      [ClockRegister; Emit EvStart (VNum 0); Emit EvUpdate (VNum 0);
       Emit EvUpdate (VNum 1); ClockUnregister; Emit EvEnd (VNum 1);
       ClockRegister; Emit EvStart (VNum 1); Emit EvUpdate (VNum 1);
       Emit EvUpdate (VNum 2); ClockUnregister; Emit EvEnd (VNum 2);
       ClockRegister; Emit EvStart (VNum 2); Emit EvUpdate (VNum 2);
       Emit EvUpdate (VNum 3); ClockUnregister; Emit EvEnd (VNum 3);
       Called 7].
Proof. vm_compute. reflexivity. Qed.

End SampleRuns.

(** * Further properties of the Transitionable *)

Section MoreProperties.
Context {api : EngineAPI}.
Implicit Types (w : World) (v : value) (cb : option callback).

(** *** Calls that cannot throw *)

Lemma select_method_plain (tm : gmap string method) tr :
  inherited_curve tr = false → ∃ m, select_method tm tr = EngineClass m.
Proof.
  intros Hp. rewrite select_method_spec. unfold inherited_curve in Hp.
  destruct (curve tr) as [c|]; [|eauto]. case_decide; [eauto|].
  destruct (tm !! c); [eauto|]. rewrite Hp. eauto.
Qed.

Lemma next_transition_plain (transitions : transitions_arg) :
  plain_transitions transitions = true →
  plain_spec (next_transition transitions).1 = true
  ∧ plain_transitions (next_transition transitions).2 = true.
Proof.
  destruct transitions as [t|[|t ts]]; cbn; [done|done|].
  intros Hts. by apply andb_prop in Hts.
Qed.

Lemma set_with_plain (inv : World → result) v (t : option transition) cb w :
  (∀ w0, plain_world w0 = true → ∃ w1, inv w0 = Ok w1 ∧ plain_world w1 = true) →
  plain_world w = true →
  plain_spec t = true →
  plain_pending cb = true →
  ∃ w', set_with inv v t cb w = Ok w' ∧ plain_world w' = true.
Proof.
  intros Hinv Hw Ht Hcb. pose proof Hw as Hw0.
  apply andb_prop in Hw0 as [Hwf Hk]. destruct t as [tr|].
  - cbn in Ht. apply negb_true_iff in Ht.
    destruct (select_method_plain (transitionMethods w) tr Ht) as [m Hsel].
    destruct (set_transition_loaded w v tr cb m Hwf Hsel)
      as (base & w' & _ & Hset & Hself & _ & _ & _ & _ & Hwf').
    exists w'. split; [exact Hset|].
    unfold plain_world. rewrite Hwf', Hself. exact Hcb.
  - unfold set_with. cbn.
    destruct (_dirty (self w)), cb as [k|]; cbn;
      try (apply Hinv; exact Hk);
      eexists; (split; [reflexivity|]); exact Hk.
Qed.

Lemma run_callback_plain : ∀ (k : callback) w,
  plain_world w = true →
  plain_callback k = true →
  ∃ w', run_callback k w = Ok w' ∧ plain_world w' = true.
Proof.
  fix IH 1. intros [id|values transitions k] w Hw Hk.
  - eexists. split; [reflexivity|exact Hw].
  - cbn in Hk. apply andb_prop in Hk as [Hts Hk]. cbn.
    revert transitions w Hw Hts.
    induction values as [|v values IHv]; intros transitions w Hw Hts.
    + destruct k as [k'|]; [by apply IH|]. by exists w.
    + destruct (next_transition_plain transitions Hts) as [Ht Hts'].
      apply set_with_plain; [|exact Hw|exact Ht|].
      * intros w0 Hw0. by apply IHv.
      * cbn. by rewrite Hts'.
Qed.

Lemma invoke_plain cb w :
  plain_world w = true →
  plain_pending cb = true →
  ∃ w', invoke cb w = Ok w' ∧ plain_world w' = true.
Proof.
  intros Hw Hcb. destruct cb as [k|]; [by apply run_callback_plain|].
  by exists w.
Qed.

Lemma update_plain w :
  plain_world w = true → ∃ w', update w = Ok w' ∧ plain_world w' = true.
Proof.
  intros Hw. apply andb_prop in Hw as [Hwf Hk].
  destruct (_engineInstance (self w)) as [e|] eqn:He.
  - destruct (engine_get (now w) e) as [[sampled e'] hook] eqn:Hget.
    pose proof Hwf as Hwf0. apply wf_spec in Hwf0 as (Ht & Hq & Hc & _).
    rewrite (update_sampled w e sampled e' hook He Hq Hget).
    eexists. split; [reflexivity|].
    apply andb_true_intro. split.
    + apply wf_spec. destruct (engine_isActive e'); cbn; eauto.
    + by destruct (engine_isActive e').
  - rewrite (update_no_engine w He). eexists. split; [reflexivity|].
    apply andb_true_intro. by split.
Qed.

Lemma run_deferred_plain d w :
  plain_world w = true →
  ∃ w', run_deferred d w = Ok w' ∧ plain_world w' = true.
Proof.
  intros Hw. pose proof Hw as Hw0. apply andb_prop in Hw0 as [Hwf Hk].
  destruct d; cbn.
  - eexists. split; [reflexivity|exact Hw].
  - destruct (_callback (self w)) as [k|].
    + apply run_callback_plain; [|exact Hk].
      apply andb_true_intro. by split.
    + eexists. split; [reflexivity|exact Hw].
Qed.

Lemma flush_plain (fuel : nat) : ∀ w,
  plain_world w = true →
  (∃ w', flush fuel w = Ok w' ∧ plain_world w' = true)
  ∨ flush fuel w = Fail OutOfFuel.
Proof.
  induction fuel as [|fuel IH]; intros w Hw; cbn;
    (destruct (dirtyQueue w) as [|d q] eqn:Hq; [left; by exists w|]);
    [by right|].
  destruct (run_deferred_plain d (dirtyQueue_shift w) Hw) as (w' & -> & Hw').
  cbn. by apply IH.
Qed.

Lemma run_call_plain (c : call) w :
  plain_call c = true →
  plain_world w = true →
  (∃ w', run_call c w = Ok w' ∧ plain_world w' = true)
  ∨ run_call c w = Fail OutOfFuel.
Proof.
  intros Hc Hw. destruct c; cbn.
  - left. cbn in Hc. apply andb_prop in Hc as [Ht Hcb].
    apply set_with_plain; [|exact Hw|exact Ht|exact Hcb].
    intros w0 Hw0. by apply invoke_plain.
  - left. by apply update_plain.
  - left. eexists. split; [reflexivity|].
    apply andb_prop in Hw as [_ Hk]. exact Hk.
  - left. eexists. split; [reflexivity|].
    apply andb_prop in Hw as [_ Hk]. exact Hk.
  - left. cbn in Hc. apply andb_prop in Hc as [Hts Hcb].
    destruct values as [|v values]; [by apply invoke_plain|].
    destruct (next_transition_plain transitions Hts) as [Ht Hts'].
    apply set_with_plain; [|exact Hw|exact Ht|].
    + intros w0 Hw0. apply (invoke_plain (Some _) w0 Hw0). cbn.
      by rewrite Hts'.
    + cbn. by rewrite Hts'.
  - left. eexists. split; [reflexivity|].
    unfold register. by destruct (has_property (transitionMethods w) name).
  - left. eexists. split; [reflexivity|].
    unfold unregister. by destruct (has_property (transitionMethods w) name).
  - by apply flush_plain.
  - left. eexists. split; [reflexivity|exact Hw].
Qed.

(** Calls whose specs name no member of [Object.prototype] do not throw. *)
Lemma run_calls_plain (cs : list call) : ∀ w,
  forallb plain_call cs = true →
  plain_world w = true →
  (∃ w', run_calls cs w = Ok w' ∧ plain_world w' = true)
  ∨ run_calls cs w = Fail OutOfFuel.
Proof.
  induction cs as [|c cs IH]; intros w Hcs Hw; [left; by exists w|].
  cbn in Hcs. apply andb_prop in Hcs as [Hc Hcs]. cbn.
  destruct (run_call_plain c w Hc Hw) as [(w' & -> & Hw')| ->]; [|by right].
  cbn. by apply IH.
Qed.

(** X1: whatever sequence of calls is made on a new instance, when the
    calls return the three queues are empty: an entry pushed by [set] is
    loaded by the same call and never waits.  An engine kind is recorded
    only together with an engine instance.  As long as no spec given to
    [set] or [iterate] has a curve that names a member of
    [Object.prototype], no call throws. *)
Theorem calls_leave_queues_empty (start : option value) (cs : list call) :
  (∀ w, run_calls cs (new_world start) = Ok w →
        transitionQueue (self w) = []
        ∧ endStateQueue (self w) = []
        ∧ callbackQueue (self w) = []
        ∧ (is_Some (_currentMethod (self w))
           → is_Some (_engineInstance (self w))))
  ∧ (forallb plain_call cs = true →
     (∃ w, run_calls cs (new_world start) = Ok w)
     ∨ run_calls cs (new_world start) = Fail OutOfFuel).
Proof.
  split.
  - intros w Hrun. apply wf_spec. exact (reachable_wf start cs w Hrun).
  - intros Hcs.
    destruct (run_calls_plain cs (new_world start) Hcs eq_refl)
      as [(w & Hrun & _)|Hfail]; [left; by exists w|by right].
Qed.

Lemma begin_transition_state w :
  _state (self (begin_transition w)) = (if isActive w then UPDATE else START)
  ∧ trace (begin_transition w)
    = trace w ++ (if isActive w then []
                  else [ClockRegister; Emit EvStart (state (self w))]).
Proof.
  unfold begin_transition. destruct (isActive w) eqn:Hact; cbn.
  - apply isActive_spec in Hact. by rewrite app_nil_r.
  - done.
Qed.

(** X2: a [set] with a transition issued right after another one takes its
    place: the callback of the first is dropped without being called, the
    pending callback is the second one's, nothing waits in the queues and
    the state value has not moved.  On an instance that was not active the
    ticker registration and the [start] event happen twice.  This is so
    when both curves select an engine class; the [set] whose curve selects
    a member of [Object.prototype] throws. *)
Theorem second_set_supersedes_first w (a b : value) (t1 t2 : transition)
    (cb1 cb2 : option callback) :
  wf w = true →
  match select_method (transitionMethods w) t1,
        select_method (transitionMethods w) t2 with
  | EngineClass _, EngineClass m2 =>
      ∃ w1 w2,
        set a (Some t1) cb1 w = Ok w1
        ∧ set b (Some t2) cb2 w1 = Ok w2
        ∧ _callback (self w2) = cb2
        ∧ callbackQueue (self w2) = []
        ∧ endStateQueue (self w2) = []
        ∧ transitionQueue (self w2) = []
        ∧ _currentMethod (self w2) = Some m2
        ∧ state (self w2) = state (self w)
        ∧ dirtyQueue w2 = dirtyQueue w
        ∧ trace w2
          = trace w ++ (if isActive w then []
                        else [ClockRegister; Emit EvStart (state (self w));
                              ClockRegister; Emit EvStart (state (self w))])
  | EngineClass _, _ =>
      ∃ w1, set a (Some t1) cb1 w = Ok w1
            ∧ set b (Some t2) cb2 w1 = Fail TypeError
  | _, _ => set a (Some t1) cb1 w = Fail TypeError
  end.
Proof.
  intros Hwf.
  destruct (select_method (transitionMethods w) t1) as [m1|name1|] eqn:Hsel1;
    [|exact (set_transition_throws w a t1 cb1 name1 Hwf Hsel1)
     |by destruct (select_method_defined (transitionMethods w) t1)].
  destruct (set_transition_loaded w a t1 cb1 m1 Hwf Hsel1)
    as (base1 & w1 & _ & Hset1 & Hself1 & Htr1 & Hdq1 & Htm1 & _ & Hwf1).
  destruct (select_method (transitionMethods w) t2) as [m2|name2|] eqn:Hsel2;
    [|exists w1; split; [exact Hset1|];
      rewrite <- Htm1 in Hsel2;
      exact (set_transition_throws w1 b t2 cb2 name2 Hwf1 Hsel2)
     |by destruct (select_method_defined (transitionMethods w) t2)].
  rewrite <- Htm1 in Hsel2.
  destruct (set_transition_loaded w1 b t2 cb2 m2 Hwf1 Hsel2)
    as (base2 & w2 & _ & Hset2 & Hself2 & Htr2 & Hdq2 & _).
  exists w1, w2. split; [exact Hset1|]. split; [exact Hset2|].
  rewrite Hself2, Htr2, Hdq2, Hdq1. cbn.
  do 5 (split; [reflexivity|]).
  split; [by rewrite Hself1|]. split; [reflexivity|].
  destruct (begin_transition_state w) as [Hst Htr].
  destruct (begin_transition_state w1) as [_ Htr'].
  rewrite Htr', Htr1, Htr.
  assert (Hact : isActive w1 = isActive w).
  { unfold isActive at 1. rewrite Hself1. cbn. rewrite Hst.
    by destruct (isActive w). }
  rewrite Hact, Hself1. cbn.
  destruct (isActive w); [by rewrite !app_nil_r|by rewrite <- app_assoc].
Qed.

Lemma update_n_no_engine (n : nat) w :
  _engineInstance (self w) = None →
  update_n (S n) w = Ok (with_self (with_state_ UPDATE (self w)) w).
Proof.
  revert w. induction n as [|n IH]; intros w He.
  - cbn [update_n]. by rewrite (update_no_engine w He).
  - change (update_n (S (S n)) w) with (bind (update w) (update_n (S n))).
    rewrite (update_no_engine w He). cbn [bind].
    by rewrite IH.
Qed.

(** X3: after [halt], any number of ticks leaves the value, the trace and
    the deferred queue as they were: no [update] or [end] event is emitted
    and the instance is never unregistered from the ticker, yet [isActive]
    answers true from the first tick on although no engine is loaded. *)
Theorem ticks_after_halt_do_nothing w (n : nat) :
  ∃ w', update_n (S n) (halt w) = Ok w'
    ∧ get w' = get w
    ∧ trace w' = trace w
    ∧ dirtyQueue w' = dirtyQueue w
    ∧ _engineInstance (self w') = None
    ∧ _callback (self w') = _callback (self w)
    ∧ isActive w' = true.
Proof.
  rewrite update_n_no_engine by reflexivity.
  eexists. split; [reflexivity|]. by repeat split.
Qed.

(** X4: [delay] is a [set] towards the value [get] returns, under a spec
    whose curve is a function: the value does not move, the callback
    becomes the pending one, and the engine is driven towards the current
    value, by the default engine kind unless something is registered under
    the text of that function.  On an active instance [delay] does not wait
    for the transition in flight: it halts it, drops its velocity and builds
    a new engine, and emits nothing. *)
Theorem delay_holds_the_value w (d : Z) cb :
  wf w = true →
  ∃ m base w',
    select_method (transitionMethods w) (Transition d (Some delay_curve) None)
    = EngineClass m
    ∧ delay d cb w = Ok w'
    ∧ get w' = get w
    ∧ _callback (self w') = cb
    ∧ _engineInstance (self w')
      = Some (drive (now w) (get w) (velocity (self (begin_transition w)))
                (get w) (Transition d (Some delay_curve) None) base).1
    ∧ (transitionMethods w !! delay_curve = None →
         _currentMethod (self w') = Some TweenTransition)
    ∧ (isActive w = true →
         trace w' = trace w
         ∧ velocity (self w') = None
         ∧ base = construct m (get w))
    ∧ (isActive w = false →
         _state (self w') = START
         ∧ trace w' = trace w ++ [ClockRegister; Emit EvStart (get w)]).
Proof.
  intros Hwf. unfold delay.
  destruct (select_method_plain (transitionMethods w)
              (Transition d (Some delay_curve) None) eq_refl) as [m Hsel].
  destruct (set_transition_loaded w (get w)
              (Transition d (Some delay_curve) None) cb m Hwf Hsel)
    as (base & w' & Hbase & Hset & Hself & Htr & _).
  exists m, base, w'. split; [exact Hsel|]. split; [exact Hset|].
  unfold get. rewrite Hself, Htr. cbn.
  do 3 (split; [reflexivity|]).
  split.
  { intros Hnone. rewrite select_method_spec in Hsel. cbn in Hsel.
    rewrite Hnone in Hsel. by injection Hsel as <-. }
  destruct (begin_transition_state w) as [Hst Htr0].
  rewrite Hst, Htr0.
  split; intros Hact; rewrite Hact.
  - split; [by rewrite app_nil_r|].
    revert Hbase. unfold begin_transition. rewrite Hact. cbn.
    unfold engine_for. cbn. case_decide; [discriminate|].
    intros [= <-]. by split.
  - by split.
Qed.

(** X5: the closure that the constructor defers for a defined [start] sets
    that value when nothing else was set in the meantime (state NONE).
    After an instantaneous [set(v)] or a [set] with a transition in the
    same tick (one that does not throw: the curve of its spec selects an
    engine class) it does nothing, as long as the state is START; but once the
    deferred cleanup of that [set(v)] has run (state END) the closure puts
    the instance back to [start], and [start] is emitted a second time. *)
Theorem constructor_initial_set (s v : value) (tr : transition) cb :
  (∃ w', initial_set s (new_world (Some s)) = Ok w'
     ∧ get w' = s
     ∧ _state (self w') = START
     ∧ trace w' = [ClockRegister; Emit EvStart s]
     ∧ dirtyQueue w' = [DirtyCleanup])
  ∧ (∃ w1, set v None None (new_world (Some s)) = Ok w1
       ∧ initial_set s w1 = Ok w1
       ∧ get w1 = v)
  ∧ match select_method (transitionMethods (new_world (Some s))) tr with
    | EngineClass _ =>
        ∃ w1, set v (Some tr) cb (new_world (Some s)) = Ok w1
              ∧ initial_set s w1 = Ok w1
    | PrototypeMember _ | Undefined =>
        set v (Some tr) cb (new_world (Some s)) = Fail TypeError
    end
  ∧ (∃ w1 w2 w',
       set v None None (new_world (Some s)) = Ok w1
       ∧ (∀ fuel, flush (S fuel) w1 = Ok w2)
       ∧ get w2 = v
       ∧ initial_set s w2 = Ok w'
       ∧ get w' = s
       ∧ trace w' = [ClockRegister; Emit EvStart v;
                     ClockUnregister; Emit EvEnd v;
                     ClockRegister; Emit EvStart s]).
Proof.
  split.
  { unfold initial_set. cbn [new_world Transitionable_new self _state].
    rewrite set_instant_clean by reflexivity.
    eexists. split; [reflexivity|]. by repeat split. }
  split.
  { rewrite set_instant_clean by reflexivity.
    eexists. split; [reflexivity|]. by split. }
  split.
  { destruct (select_method (transitionMethods (new_world (Some s))) tr)
      as [m|name|] eqn:Hsel.
    - destruct (set_transition_loaded (new_world (Some s)) v tr cb m
                  (new_world_wf (Some s)) Hsel)
        as (base & w1 & _ & Hset & Hself & _).
      exists w1. split; [exact Hset|]. unfold initial_set. by rewrite Hself.
    - exact (set_transition_throws (new_world (Some s)) v tr cb name
               (new_world_wf (Some s)) Hsel).
    - by destruct (select_method_defined
                     (transitionMethods (new_world (Some s))) tr). }
  rewrite set_instant_clean by reflexivity.
  eexists. eexists. eexists. split; [reflexivity|].
  split.
  { intros fuel. by rewrite flush_one_cleanup by reflexivity. }
  split; [reflexivity|].
  unfold initial_set. cbn [self _state with_state_ with_dirty].
  rewrite set_instant_clean by reflexivity.
  split; [reflexivity|]. by split.
Qed.

Lemma next_transition_no_specs (transitions : transitions_arg) :
  no_specs transitions →
  next_transition transitions = (None, transitions).
Proof. by intros [-> | ->]. Qed.

Lemma instant_world_twice v v' w :
  instant_world v' (instant_world v w) = instant_world v' w.
Proof. reflexivity. Qed.

Lemma set_with_instant_dirty (inv : World → result) v (k : callback) w :
  _dirty (self w) = true →
  _state (self w) = START →
  set_with inv v None (Some k) w = inv (instant_world v w).
Proof.
  intros Hd Hst. unfold set_with. cbn. rewrite Hd. f_equal.
  unfold instant_world, reset. cbn. by rewrite Hd, Hst.
Qed.

Lemma set_with_instant_clean (inv : World → result) v (k : callback) w :
  _dirty (self w) = false →
  set_with inv v None (Some k) w
  = inv (instant_world v
           (dirtyQueue_push DirtyCleanup
              (log [ClockRegister; Emit EvStart v] w))).
Proof. intros Hd. unfold set_with. cbn. by rewrite Hd. Qed.

Lemma iterate_no_specs_dirty transitions cb (vs : list value) : ∀ v w,
  no_specs transitions →
  _dirty (self w) = true →
  _state (self w) = START →
  iterate (v :: vs) transitions cb w
  = invoke cb (instant_world (default v (last vs)) w).
Proof.
  induction vs as [|v' vs IH]; intros v w Hts Hd Hst.
  - unfold iterate. rewrite (next_transition_no_specs _ Hts). cbn [fst snd].
    unfold set. by rewrite set_with_instant_dirty.
  - unfold iterate. rewrite (next_transition_no_specs _ Hts). cbn [fst snd].
    unfold set. rewrite set_with_instant_dirty by assumption.
    cbn [invoke]. rewrite run_callback_iterate.
    rewrite IH by (exact Hts || reflexivity).
    rewrite instant_world_twice, last_cons. by destruct (last vs).
Qed.

(** X6: [iterate] given no spec (an undefined [transitions], or an empty
    array of specs) applies all its values within the call: on an instance
    not marked dirty it registers and emits [start] once, with the first
    value, the value left is the last one, the callback is called once, at
    the end of the call, and one cleanup is deferred. *)
Theorem iterate_without_specs_is_synchronous (vs : list value)
    (transitions : transitions_arg) (id : nat) w (first final : value) :
  no_specs transitions →
  head vs = Some first →
  last vs = Some final →
  _dirty (self w) = false →
  ∃ w', iterate vs transitions (Some (CbUser id)) w = Ok w'
    ∧ get w' = final
    ∧ _state (self w') = START
    ∧ _engineInstance (self w') = None
    ∧ trace w' = trace w ++ [ClockRegister; Emit EvStart first; Called id]
    ∧ dirtyQueue w' = dirtyQueue w ++ [DirtyCleanup].
Proof.
  intros Hts Hhead Hlast Hd.
  destruct vs as [|v vs]; [discriminate|]. injection Hhead as ->.
  assert (Hfinal : final = default first (last vs)).
  { rewrite last_cons in Hlast. destruct (last vs); by injection Hlast. }
  unfold iterate. rewrite (next_transition_no_specs _ Hts). cbn [fst snd].
  unfold set. rewrite set_with_instant_clean by exact Hd.
  cbn [invoke]. rewrite run_callback_iterate.
  destruct vs as [|v' vs].
  - cbn in Hfinal. subst final. eexists. split; [reflexivity|]. cbn.
    repeat split. by rewrite <- app_assoc.
  - rewrite iterate_no_specs_dirty by (exact Hts || reflexivity).
    assert (Hfinal' : final = default v' (last vs)).
    { rewrite Hfinal, last_cons. by destruct (last vs). }
    eexists. split; [reflexivity|]. cbn.
    rewrite <- Hfinal'. repeat split. by rewrite <- app_assoc.
Qed.

(** X7: when [update] has found the engine done and deferred the terminal
    sequence, an instantaneous [set(v)] issued before the deferred phase
    does not cancel it: the phase emits [end] twice, both with [v], and the
    terminal sequence still calls the callback of the transition that the
    [set] replaced. *)
Theorem interrupt_after_completion_ends_twice w (e e' : engine)
    (sampled v : value) (hook : bool) (id : nat) :
  wf w = true →
  _dirty (self w) = false →
  dirtyQueue w = [] →
  _engineInstance (self w) = Some e →
  engine_get (now w) e = (sampled, e', hook) →
  engine_isActive e' = false →
  _callback (self w) = Some (CbUser id) →
  ∃ w1 w2 w3,
    update w = Ok w1
    ∧ set v None None w1 = Ok w2
    ∧ (∀ fuel, flush (S (S fuel)) w2 = Ok w3)
    ∧ trace w3 = trace w ++ [Emit EvUpdate sampled;
                             ClockRegister; Emit EvStart v;
                             ClockUnregister; Emit EvEnd v; Called id;
                             ClockUnregister; Emit EvEnd v]
    ∧ count_end (trace w3) = S (S (count_end (trace w)))
    ∧ get w3 = v
    ∧ _state (self w3) = END
    ∧ _callback (self w3) = None
    ∧ dirtyQueue w3 = [].
Proof.
  intros Hwf Hd Hq He Hget Hdone Hcb.
  apply wf_spec in Hwf as (_ & Hesq & _).
  rewrite (update_sampled w e sampled e' hook He Hesq Hget), Hdone.
  eexists. eexists. eexists. split; [reflexivity|].
  rewrite set_instant_clean by exact Hd.
  split; [reflexivity|].
  cbn [dirtyQueue_push sampled_world self dirtyQueue trace transitionMethods
       now _callback].
  rewrite Hq, Hcb.
  split.
  { intros fuel. cbn. destruct fuel; reflexivity. }
  cbn. repeat split.
  - by rewrite <- !app_assoc.
  - rewrite <- !app_assoc, count_end_app. cbn. lia.
Qed.

(** X16: registering a kind under a free name, one that is not the name
    of a member of [Object.prototype] either, and then unregistering that
    name succeeds and brings the whole world, registry included, back to
    what it was; meanwhile a transition with that curve selects the kind. *)
Theorem register_then_unregister w (name : string) (engineClass : method)
    (d : Z) (vel : option value) :
  name ≠ "" →
  inherited name = false →
  transitionMethods w !! name = None →
  unregister name (register name engineClass w) = (true, w)
  ∧ select_method (transitionMethods (register name engineClass w))
      (Transition d (Some name) vel) = EngineClass engineClass
  ∧ select_method (transitionMethods w) (Transition d (Some name) vel)
    = EngineClass TweenTransition.
Proof.
  intros Hname Hin Hfree. split.
  { unfold register, unregister, has_property. rewrite Hfree, Hin. cbn.
    rewrite lookup_insert_eq, (delete_insert_id _ _ _ Hfree).
    by destruct w. }
  unfold register, has_property. rewrite Hfree, Hin.
  rewrite !select_method_spec. cbn [curve transitionMethods].
  case_decide; [contradiction|].
  by rewrite lookup_insert_eq, Hfree, Hin.
Qed.

(** *** The velocity stays undefined *)

Lemma set_transition_settled v tr cb w w' :
  settled w → set v (Some tr) cb w = Ok w' → settled w'.
Proof.
  intros [Hwf Hvel] Hset.
  destruct (select_method (transitionMethods w) tr) as [m|name|] eqn:Hsel.
  - destruct (set_transition_loaded w v tr cb m Hwf Hsel)
      as (base & w'' & _ & Hset' & Hself & _ & _ & _ & _ & Hwf').
    rewrite Hset in Hset'. injection Hset' as <-.
    split; [exact Hwf'|].
    rewrite Hself. cbn. unfold drive.
    assert (Hnone : velocity (self (begin_transition w)) = None).
    { unfold begin_transition. by destruct (isActive w). }
    by rewrite Hnone.
  - rewrite (set_transition_throws w v tr cb name Hwf Hsel) in Hset.
    discriminate.
  - by destruct (select_method_defined (transitionMethods w) tr).
Qed.

Lemma set_with_settled (inv : World → result) v (t : option transition) cb
    w w' :
  (∀ w0 w1, settled w0 → inv w0 = Ok w1 → settled w1) →
  settled w →
  set_with inv v t cb w = Ok w' →
  settled w'.
Proof.
  intros Hinv Hw. destruct t as [tr|].
  - exact (set_transition_settled v tr cb w w' Hw).
  - destruct Hw as [Hwf Hvel]. unfold set_with. cbn.
    destruct (_dirty (self w)), cb as [k|]; cbn;
      try (apply Hinv; split; reflexivity);
      intros [= <-]; split; reflexivity.
Qed.

Lemma run_callback_settled : ∀ (k : callback) w w',
  settled w → run_callback k w = Ok w' → settled w'.
Proof.
  fix IH 1. intros [id|values transitions k] w w' Hw.
  - by intros [= <-].
  - cbn. revert transitions w w' Hw.
    induction values as [|v values IHv]; intros transitions w w' Hw.
    + destruct k as [k'|]; [by apply IH|]. by intros [= <-].
    + apply set_with_settled; [|exact Hw]. intros w0 w1 Hw0. by apply IHv.
Qed.

Lemma invoke_settled cb w w' :
  settled w → invoke cb w = Ok w' → settled w'.
Proof.
  intros Hw. destruct cb as [k|]; [by apply run_callback_settled|].
  by intros [= <-].
Qed.

Lemma run_call_settled (c : call) w w' :
  no_velocity_given c = true →
  settled w →
  run_call c w = Ok w' →
  settled w'.
Proof.
  intros Hc Hw. destruct c; cbn.
  - apply set_with_settled; [|exact Hw]. intros w0 w1. apply invoke_settled.
  - destruct Hw as [Hwf Hvel].
    destruct (_engineInstance (self w)) as [e|] eqn:He.
    + destruct (engine_get (now w) e) as [[sampled e'] hook] eqn:Hget.
      pose proof Hwf as Hwf0. apply wf_spec in Hwf0 as (Ht & Hq & Hcq & _).
      rewrite (update_sampled w e sampled e' hook He Hq Hget).
      intros [= <-].
      split; [|by destruct (engine_isActive e')].
      apply wf_spec. destruct (engine_isActive e'); cbn; eauto.
    + rewrite (update_no_engine w He). intros [= <-]. by split.
  - intros [= <-]. by split.
  - destruct startVelocity; [discriminate|]. intros [= <-]. by split.
  - destruct values as [|v values]; [by apply invoke_settled|].
    apply set_with_settled; [|exact Hw]. intros w0 w1. apply invoke_settled.
  - intros [= <-]. unfold register.
    by destruct (has_property (transitionMethods w) name).
  - intros [= <-]. unfold unregister.
    by destruct (has_property (transitionMethods w) name).
  - clear Hc. revert w Hw. induction fuel as [|fuel IHf]; intros w Hw; cbn;
      (destruct (dirtyQueue w) as [|d q] eqn:Hq; [by intros [= <-]|]);
      [discriminate|].
    destruct (run_deferred d (dirtyQueue_shift w)) as [w1|err] eqn:Hd;
      [|discriminate].
    cbn. apply IHf.
    destruct d; cbn in Hd.
    + injection Hd as <-. exact Hw.
    + destruct (_callback (self w)) as [k|].
      * refine (run_callback_settled k _ w1 _ Hd). exact Hw.
      * injection Hd as <-. exact Hw.
  - by intros [= <-].
Qed.

Lemma run_calls_settled (cs : list call) : ∀ w w',
  forallb no_velocity_given cs = true →
  settled w →
  run_calls cs w = Ok w' →
  settled w'.
Proof.
  induction cs as [|c cs IH]; intros w w' Hcs Hw; [by intros [= <-]|].
  cbn in Hcs. apply andb_prop in Hcs as [Hc Hcs]. cbn.
  destruct (run_call c w) as [w1|err] eqn:Hrun; [|discriminate].
  cbn. apply IH; [exact Hcs|]. exact (run_call_settled c w w1 Hc Hw Hrun).
Qed.

(** X17: as long as [reset] is not called with a velocity, the velocity of
    a new instance is still undefined after any sequence of calls that
    return: [set], [halt] and the loader only ever clear it or keep it
    undefined (the loader reads a velocity back from the engine, and writes
    it onto the transition spec, only when one is defined).  The calls do
    return, short of fuel for the deferred phase, when no spec has a curve
    that names a member of [Object.prototype]. *)
Theorem velocity_stays_undefined (start : option value) (cs : list call) :
  forallb no_velocity_given cs = true →
  (∀ w, run_calls cs (new_world start) = Ok w → velocity (self w) = None)
  ∧ (forallb plain_call cs = true →
     (∃ w, run_calls cs (new_world start) = Ok w ∧ velocity (self w) = None)
     ∨ run_calls cs (new_world start) = Fail OutOfFuel).
Proof.
  intros Hcs.
  assert (Hpart : ∀ w, run_calls cs (new_world start) = Ok w →
                       velocity (self w) = None).
  { intros w Hrun.
    exact (proj2 (run_calls_settled cs (new_world start) w Hcs
                    (conj (new_world_wf start) eq_refl) Hrun)). }
  split; [exact Hpart|].
  intros Hplain.
  destruct (run_calls_plain cs (new_world start) Hplain eq_refl)
    as [(w & Hrun & _)|Hfail]; [left|by right].
  exists w. split; [exact Hrun|exact (Hpart w Hrun)].
Qed.

End MoreProperties.

Section MoreSampleRuns.
Local Existing Instance sample_api.

Lemma second_set_supersedes_first_witness :
  wf (new_world None) = true
  ∧ ∃ w1 w2,
      set (VNum 1) (Some (linear 100)) (Some (CbUser 1)) (new_world None) = Ok w1
      ∧ set (VNum 2) (Some (linear 50)) (Some (CbUser 2)) w1 = Ok w2
      ∧ _callback (self w2) = Some (CbUser 2)
      ∧ trace w2 = [ClockRegister; Emit EvStart (VNum 0);
                    ClockRegister; Emit EvStart (VNum 0)].
Proof.
  split; [reflexivity|].
  pose proof (second_set_supersedes_first (new_world None) (VNum 1) (VNum 2)
                (linear 100) (linear 50) (Some (CbUser 1)) (Some (CbUser 2))
                eq_refl) as Hboth.
  change (select_method (transitionMethods (new_world None)) (linear 100))
    with (EngineClass TweenTransition) in Hboth.
  change (select_method (transitionMethods (new_world None)) (linear 50))
    with (EngineClass TweenTransition) in Hboth.
  destruct Hboth as (w1 & w2 & H1 & H2 & Hcb & _ & _ & _ & _ & _ & _ & Htr).
  exists w1, w2. repeat split; assumption.
Defined.

Lemma delay_holds_the_value_witness :
  wf (world_after sampled_calls) = true
  ∧ isActive (world_after sampled_calls) = true
  ∧ ∃ w', delay 30 (Some (CbUser 3)) (world_after sampled_calls) = Ok w'
      ∧ get w' = get (world_after sampled_calls)
      ∧ _callback (self w') = Some (CbUser 3)
      ∧ trace w' = trace (world_after sampled_calls)
      ∧ velocity (self w') = None.
Proof.
  split; [reflexivity|]. split; [reflexivity|].
  destruct (delay_holds_the_value (world_after sampled_calls) 30
              (Some (CbUser 3)) eq_refl)
    as (m & base & w' & _ & Hd & Hget & Hcb & _ & _ & Hact & _).
  destruct (Hact eq_refl) as (Htr & Hvel & _).
  exists w'. repeat split; assumption.
Defined.

Lemma iterate_without_specs_is_synchronous_witness :
  no_specs (Shared None)
  ∧ _dirty (self (new_world None)) = false
  ∧ ∃ w', iterate [VNum 1; VNum 2; VNum 3] (Shared None) (Some (CbUser 7))
            (new_world None) = Ok w'
      ∧ get w' = VNum 3
      ∧ _state (self w') = START
      ∧ _engineInstance (self w') = None
      ∧ trace w' = trace (new_world None)
                   ++ [ClockRegister; Emit EvStart (VNum 1); Called 7]
      ∧ dirtyQueue w' = dirtyQueue (new_world None) ++ [DirtyCleanup].
Proof.
  split; [by left|]. split; [reflexivity|].
  apply (iterate_without_specs_is_synchronous [VNum 1; VNum 2; VNum 3]
           (Shared None) 7 (new_world None) (VNum 1) (VNum 3));
    [by left|reflexivity..].
Defined.

Lemma interrupt_after_completion_ends_twice_witness :
  wf (world_after finishing_with_callback) = true
  ∧ _callback (self (world_after finishing_with_callback)) = Some (CbUser 7)
  ∧ ∃ w1 w2 w3,
      update (world_after finishing_with_callback) = Ok w1
      ∧ set (VNum 9) None None w1 = Ok w2
      ∧ (∀ fuel, flush (S (S fuel)) w2 = Ok w3)
      ∧ count_end (trace w3)
        = S (S (count_end (trace (world_after finishing_with_callback))))
      ∧ get w3 = VNum 9.
Proof.
  split; [reflexivity|]. split; [reflexivity|].
  destruct (interrupt_after_completion_ends_twice
              (world_after finishing_with_callback)
              (mkTween "TweenTransition" false (VNum 0) (VNum 0) (VNum 5)
                 0 100 true None)
              (mkTween "TweenTransition" false (VNum 5) (VNum 0) (VNum 5)
                 0 100 false None)
              (VNum 5) (VNum 9) true 7
              eq_refl eq_refl eq_refl eq_refl eq_refl eq_refl eq_refl)
    as (w1 & w2 & w3 & Hu & Hs & Hf & _ & Hcount & Hget & _).
  exists w1, w2, w3. repeat split; assumption.
Defined.

Lemma register_then_unregister_witness :
  inherited "spring" = false
  ∧ transitionMethods (new_world None) !! "spring" = None
  ∧ unregister "spring" (register "spring" "SpringTransition" (new_world None))
    = (true, new_world None)
  ∧ select_method
      (transitionMethods (register "spring" "SpringTransition" (new_world None)))
      (Transition 100 (Some "spring") None) = EngineClass "SpringTransition".
Proof.
  split; [reflexivity|]. split; [reflexivity|].
  destruct (register_then_unregister (api := sample_api) (new_world None)
              "spring" "SpringTransition" 100 None)
    as (Hun & Hsel & _); [discriminate|reflexivity|reflexivity|].
  split; [exact Hun|exact Hsel].
Defined.

Lemma velocity_stays_undefined_witness :
  forallb no_velocity_given in_flight_calls = true
  ∧ forallb plain_call in_flight_calls = true
  ∧ ((∃ w, run_calls in_flight_calls (new_world None) = Ok w
           ∧ velocity (self w) = None)
     ∨ run_calls in_flight_calls (new_world None) = Fail OutOfFuel).
Proof.
  split; [reflexivity|]. split; [reflexivity|].
  apply (velocity_stays_undefined None in_flight_calls); reflexivity.
Defined.

Lemma calls_leave_queues_empty_witness :
  forallb plain_call in_flight_calls = true
  ∧ ((∃ w, run_calls in_flight_calls (new_world None) = Ok w)
     ∨ run_calls in_flight_calls (new_world None) = Fail OutOfFuel).
Proof.
  split; [reflexivity|].
  apply (calls_leave_queues_empty None in_flight_calls). reflexivity.
Defined.

End MoreSampleRuns.

(** * Properties of the TouchTracker *)

Module TouchTrackerFacts.
Import TouchTracker.

Implicit Types (w : world) (t : touch) (event : touch_event) (id : Z)
  (r : nat) (h : list data).

(** ** What the loop bodies leave alone *)

Lemma start_touch_frame event w t :
  clock (start_touch event w t) = clock w
  ∧ isTouched (this (start_touch event w t)) = isTouched (this w)
  ∧ touchLimit (this (start_touch event w t)) = touchLimit (this w).
Proof.
  unfold start_touch. cbn.
  by destruct (touchHistory (this w) !! identifier t).
Qed.

Lemma move_touch_frame event w t :
  clock (move_touch event w t) = clock w
  ∧ this (move_touch event w t) = this w
  ∧ length (arrays (move_touch event w t)) = length (arrays w).
Proof.
  unfold move_touch.
  destruct (touchHistory (this w) !! identifier t) as [r|]; [|done].
  cbn. by rewrite length_alter.
Qed.

Lemma end_touch_frame event w t :
  clock (end_touch event w t) = clock w
  ∧ arrays (end_touch event w t) = arrays w
  ∧ isTouched (this (end_touch event w t)) = isTouched (this w)
  ∧ touchLimit (this (end_touch event w t)) = touchLimit (this w).
Proof.
  unfold end_touch.
  by destruct (touchHistory (this w) !! identifier t).
Qed.

Lemma _timestampTouch_clock t event (hist : option nat) w w' :
  clock w = clock w' →
  _timestampTouch t event hist w = _timestampTouch t event hist w'.
Proof. unfold _timestampTouch. by intros ->. Qed.

(** ** The invariant *)

Lemma tracker_wf_injective w id1 id2 r :
  wf w →
  touchHistory (this w) !! id1 = Some r →
  touchHistory (this w) !! id2 = Some r →
  id1 = id2.
Proof.
  intros Hwf H1 H2.
  destruct (Hwf id1 r H1) as (h & Hh & d & ds & -> & _ & _ & Hid1).
  destruct (Hwf id2 r H2) as (h' & Hh' & d' & ds' & -> & _ & _ & Hid2).
  rewrite Hh in Hh'. injection Hh' as <- <-.
  apply Forall_cons in Hid1 as [Hid1 _]. apply Forall_cons in Hid2 as [Hid2 _].
  congruence.
Qed.

Lemma tracker_new_world_wf : wf new_world.
Proof. intros id r Hid. cbn in Hid. by rewrite lookup_empty in Hid. Qed.

Lemma start_touch_wf event w t : wf w → wf (start_touch event w t).
Proof.
  intros Hwf. unfold start_touch. cbn.
  destruct (touchHistory (this w) !! identifier t) as [r0|] eqn:Ht.
  - exact Hwf.
  - intros id r. cbn. rewrite lookup_insert_Some.
    intros [[<- <-]|[Hne Hid]].
    + eexists. split; [apply list_lookup_middle; reflexivity|].
      eexists _, []. repeat split; [constructor|].
      by repeat constructor.
    + destruct (Hwf id r Hid) as (h & Hh & Hok).
      exists h. split; [by apply lookup_app_l_Some|exact Hok].
Qed.

Lemma move_touch_wf event w t : wf w → wf (move_touch event w t).
Proof.
  intros Hwf. unfold move_touch.
  destruct (touchHistory (this w) !! identifier t) as [r0|] eqn:Ht; [|exact Hwf].
  intros id r Hid. cbn in Hid |- *.
  destruct (Hwf id r Hid) as (h & Hh & Hok).
  destruct (decide (r0 = r)) as [->|Hne].
  - assert (identifier t = id) as <- by exact (tracker_wf_injective w _ _ r Hwf Ht Hid).
    eexists. split; [rewrite list_lookup_alter_eq, Hh; reflexivity|].
    destruct Hok as (d & ds & -> & Hd & Hds & Hids).
    exists d, (ds ++ [_timestampTouch t event (Some r) w]).
    split; [reflexivity|]. split; [exact Hd|].
    split.
    + apply Forall_app. split; [exact Hds|]. by repeat constructor.
    + change (Forall (λ d', data_identifier d' = identifier t)
                ((d :: ds) ++ [_timestampTouch t event (Some r) w])).
      apply Forall_app. split; [exact Hids|]. by repeat constructor.
  - exists h. split; [by rewrite list_lookup_alter_ne|exact Hok].
Qed.

Lemma end_touch_wf event w t : wf w → wf (end_touch event w t).
Proof.
  intros Hwf. unfold end_touch.
  destruct (touchHistory (this w) !! identifier t) as [r0|] eqn:Ht; [|exact Hwf].
  intros id r. cbn. rewrite lookup_delete_Some. intros [_ Hid].
  exact (Hwf id r Hid).
Qed.

Lemma foldl_wf (f : world → touch → world) (ts : list touch) w :
  (∀ w' t, wf w' → wf (f w' t)) → wf w → wf (foldl f w ts).
Proof.
  intros Hf. revert w. induction ts as [|t ts IH]; intros w Hwf; cbn; auto.
Qed.

Lemma handle_wf (i : input) event w : wf w → wf (handle i event w).
Proof.
  intros Hwf.
  assert (Hend : wf (_handleEnd event w)).
  { unfold _handleEnd. destruct (isTouched (this w)); [|exact Hwf].
    intros id r Hid. cbn in Hid.
    exact (foldl_wf (end_touch event) _ w (end_touch_wf event) Hwf id r Hid). }
  destruct i; cbn; try exact Hend.
  - unfold _handleStart. destruct (over_limit event w); [exact Hwf|].
    apply foldl_wf; [apply start_touch_wf|exact Hwf].
  - apply foldl_wf; [apply move_touch_wf|exact Hwf].
Qed.

(** X8: whatever events a new tracker receives, every identifier it tracks
    has an array of its own in the store, which is not empty, holds only
    data of that identifier, starts with the data of the start (without
    history) and continues with data that refer to the array itself. *)
Theorem tracked_histories_are_well_formed (steps : list step) (id : Z) (r : nat) :
  touchHistory (this (run steps new_world)) !! id = Some r →
  (∃ h, arrays (run steps new_world) !! r = Some h ∧ history_ok id r h)
  ∧ ∀ id', touchHistory (this (run steps new_world)) !! id' = Some r → id' = id.
Proof.
  assert (Hwf : wf (run steps new_world)).
  { unfold run. generalize tracker_new_world_wf. generalize new_world.
    induction steps as [|s steps IH]; intros w Hwf; [exact Hwf|].
    cbn. apply IH. destruct s as [i event|dt]; [by apply handle_wf|exact Hwf]. }
  intros Hid. split; [exact (Hwf id r Hid)|].
  intros id' Hid'. exact (tracker_wf_injective _ _ _ r Hwf Hid' Hid).
Qed.

(** ** touchmove *)

Lemma foldl_move_frame event (ts : list touch) w :
  clock (foldl (move_touch event) w ts) = clock w
  ∧ this (foldl (move_touch event) w ts) = this w
  ∧ length (arrays (foldl (move_touch event) w ts)) = length (arrays w).
Proof.
  revert w. induction ts as [|t ts IH]; intros w; [done|]. cbn.
  destruct (IH (move_touch event w t)) as (-> & -> & ->).
  apply move_touch_frame.
Qed.

Lemma omap_moved_ext event (ts : list touch) w' w :
  clock w' = clock w → this w' = this w →
  omap (moved event w') ts = omap (moved event w) ts.
Proof.
  intros Hc Hthis. induction ts as [|t ts IH]; [done|]. cbn.
  rewrite IH. unfold moved. rewrite Hthis.
  destruct (touchHistory (this w) !! identifier t) as [r|]; [|done]. cbn.
  by rewrite (_timestampTouch_clock t event _ w' w Hc).
Qed.

Lemma fmap_timestamp_ext event (hist : option nat) (ts : list touch) w' w :
  clock w' = clock w →
  (λ t, _timestampTouch t event hist w') <$> ts
  = (λ t, _timestampTouch t event hist w) <$> ts.
Proof.
  intros Hc. induction ts as [|t ts IH]; [done|]. cbn.
  by rewrite IH, (_timestampTouch_clock t event _ w' w Hc).
Qed.

Lemma foldl_move_emitted event (ts : list touch) : ∀ w,
  emitted (foldl (move_touch event) w ts)
  = emitted w ++ omap (moved event w) ts.
Proof.
  induction ts as [|t ts IH]; intros w; cbn; [by rewrite app_nil_r|].
  rewrite IH. destruct (move_touch_frame event w t) as (Hc & Hthis & _).
  rewrite (omap_moved_ext event ts _ w Hc Hthis). unfold move_touch, moved.
  destruct (touchHistory (this w) !! identifier t) as [r|]; cbn; [|done].
  by rewrite <- app_assoc.
Qed.

Lemma foldl_move_arrays event id r (ts : list touch) : ∀ w h,
  wf w →
  touchHistory (this w) !! id = Some r →
  arrays w !! r = Some h →
  arrays (foldl (move_touch event) w ts) !! r
  = Some (h ++ ((λ t, _timestampTouch t event (Some r) w)
                  <$> filter (λ t, identifier t = id) ts)).
Proof.
  induction ts as [|t ts IH]; intros w h Hwf Hid Hh.
  { cbn. by rewrite app_nil_r. }
  cbn [foldl].
  destruct (move_touch_frame event w t) as (Hc & Hthis & _).
  pose proof (move_touch_wf event w t Hwf) as Hwf'.
  rewrite filter_cons. case_decide as Ht.
  - assert (Hh' : arrays (move_touch event w t) !! r
                  = Some (h ++ [_timestampTouch t event (Some r) w])).
    { unfold move_touch. rewrite Ht, Hid. cbn.
      by rewrite list_lookup_alter_eq, Hh. }
    rewrite (IH _ _ Hwf' ltac:(by rewrite Hthis) Hh').
    rewrite (fmap_timestamp_ext event _ _ _ w Hc).
    by rewrite <- app_assoc.
  - assert (Hh' : arrays (move_touch event w t) !! r = Some h).
    { unfold move_touch.
      destruct (touchHistory (this w) !! identifier t) as [r'|] eqn:Hr';
        [|exact Hh].
      cbn. rewrite list_lookup_alter_ne; [exact Hh|].
      intros ->. apply Ht. exact (tracker_wf_injective w _ _ r Hwf Hr' Hid). }
    rewrite (IH _ _ Hwf' ltac:(by rewrite Hthis) Hh').
    by rewrite (fmap_timestamp_ext event _ _ _ w Hc).
Qed.

(** X9: [_handleMove] adds and removes no history and leaves [isTouched]
    alone; it emits one [trackmove] for each changed touch that is tracked,
    in order, and nothing for the others; and the array of a tracked
    identifier grows by the data of the changed touches of that identifier,
    each of which refers to the array it has been pushed on. *)
Theorem move_extends_tracked_histories event w id r h :
  wf w →
  touchHistory (this w) !! id = Some r →
  arrays w !! r = Some h →
  this (_handleMove event w) = this w
  ∧ emitted (_handleMove event w)
    = emitted w ++ omap (moved event w) (changedTouches event)
  ∧ arrays (_handleMove event w) !! r
    = Some (h ++ ((λ t, _timestampTouch t event (Some r) w)
                    <$> filter (λ t, identifier t = id) (changedTouches event)))
  ∧ (∀ id', touchHistory (this w) !! id' = None →
       omap (moved event w) (filter (λ t, identifier t = id') (changedTouches event))
       = []).
Proof.
  intros Hwf Hid Hh. unfold _handleMove.
  split; [apply foldl_move_frame|].
  split; [apply foldl_move_emitted|].
  split; [by apply foldl_move_arrays|].
  intros id' Hnone. induction (changedTouches event) as [|t ts IH]; [done|].
  rewrite filter_cons. case_decide as Ht; [|exact IH].
  cbn. unfold moved at 1. rewrite Ht, Hnone. exact IH.
Qed.

(** ** touchend *)

Lemma foldl_end_frame event (ts : list touch) w :
  clock (foldl (end_touch event) w ts) = clock w
  ∧ arrays (foldl (end_touch event) w ts) = arrays w
  ∧ isTouched (this (foldl (end_touch event) w ts)) = isTouched (this w)
  ∧ touchLimit (this (foldl (end_touch event) w ts)) = touchLimit (this w).
Proof.
  revert w. induction ts as [|t ts IH]; intros w; [done|]. cbn.
  destruct (IH (end_touch event w t)) as (-> & -> & -> & ->).
  apply end_touch_frame.
Qed.

Lemma end_touch_lookup event w t id :
  touchHistory (this (end_touch event w t)) !! id
  = if decide (id = identifier t) then None else touchHistory (this w) !! id.
Proof.
  unfold end_touch.
  destruct (touchHistory (this w) !! identifier t) as [r|] eqn:Ht; cbn.
  - case_decide as Hid; [subst; apply lookup_delete_eq|].
    by apply lookup_delete_ne.
  - case_decide; by subst.
Qed.

Lemma foldl_end_lookup event id (ts : list touch) : ∀ w,
  touchHistory (this (foldl (end_touch event) w ts)) !! id
  = if decide (id ∈ identifier <$> ts) then None
    else touchHistory (this w) !! id.
Proof.
  induction ts as [|t ts IH]; intros w.
  { cbn. case_decide as Hin; [|done]. by apply elem_of_nil in Hin. }
  cbn [foldl]. rewrite IH, end_touch_lookup, fmap_cons.
  destruct (decide (id ∈ identifier <$> ts)) as [Hts|Hts],
    (decide (id = identifier t)) as [Ht|Ht],
    (decide (id ∈ identifier t :: (identifier <$> ts))) as [Hin|Hin];
    try reflexivity; exfalso.
  - apply Hin. by right.
  - apply Hin. by right.
  - apply Hin. subst id. by left.
  - apply elem_of_cons in Hin as [Hin|Hin]; contradiction.
Qed.

Lemma foldl_end_emitted event (ts : list touch) : ∀ w w0,
  NoDup (identifier <$> ts) →
  clock w = clock w0 →
  (∀ t, t ∈ ts →
     touchHistory (this w) !! identifier t
     = touchHistory (this w0) !! identifier t) →
  emitted (foldl (end_touch event) w ts)
  = emitted w ++ omap (released event w0) ts.
Proof.
  induction ts as [|t ts IH]; intros w w0 Hnd Hc Hsame.
  { cbn. by rewrite app_nil_r. }
  cbn [foldl]. rewrite fmap_cons in Hnd. apply NoDup_cons in Hnd as [Hnot Hnd].
  destruct (end_touch_frame event w t) as (Hc' & _).
  rewrite (IH _ w0 Hnd); [|congruence|].
  - assert (Hhead : emitted (end_touch event w t)
                    = emitted w ++ option_list (released event w0 t)).
    { unfold released. rewrite <- (Hsame t) by left. unfold end_touch.
      destruct (touchHistory (this w) !! identifier t) as [r|]; cbn;
        [|by rewrite app_nil_r].
      by rewrite (_timestampTouch_clock t event _ w w0 Hc). }
    rewrite Hhead, <- app_assoc. f_equal.
    change (omap (released event w0) (t :: ts))
      with (match released event w0 t with
            | Some y => y :: omap (released event w0) ts
            | None => omap (released event w0) ts
            end).
    by destruct (released event w0 t).
  - intros t' Hin. rewrite end_touch_lookup. case_decide as Heq.
    + exfalso. apply Hnot. rewrite <- Heq. apply list_elem_of_fmap. eauto.
    + apply Hsame. by right.
Qed.

(** X10: while the tracker is touched, [_handleEnd] forgets the identifier
    of every changed touch and keeps every other one as it was; it leaves
    the arrays alone and clears [isTouched].  When the changed touches have
    distinct identifiers it emits one [trackend] for each that was tracked,
    in order, with data that refer to the array of the touch. *)
Theorem end_forgets_changed_touches event w :
  isTouched (this w) = true →
  (∀ id, touchHistory (this (_handleEnd event w)) !! id
         = if decide (id ∈ changed_ids event) then None
           else touchHistory (this w) !! id)
  ∧ isTouched (this (_handleEnd event w)) = false
  ∧ arrays (_handleEnd event w) = arrays w
  ∧ (NoDup (changed_ids event) →
       emitted (_handleEnd event w)
       = emitted w ++ omap (released event w) (changedTouches event)).
Proof.
  intros Htouched. unfold _handleEnd. rewrite Htouched. cbn.
  split; [intros id; apply foldl_end_lookup|].
  split; [reflexivity|].
  split; [apply foldl_end_frame|].
  intros Hnd. by apply foldl_end_emitted.
Qed.

(** X11: once a [touchend] or [touchcancel] has been handled, the next one
    is ignored altogether, whatever touches it reports: a touch that was
    still down when the first one ended keeps its history when its own end
    arrives, and no [trackend] is emitted for it. *)
Theorem end_after_end_is_ignored event1 event2 w :
  _handleEnd event2 (_handleEnd event1 w) = _handleEnd event1 w
  ∧ ∀ id r,
      isTouched (this w) = true →
      touchHistory (this w) !! id = Some r →
      id ∉ changed_ids event1 →
      touchHistory (this (_handleEnd event2 (_handleEnd event1 w))) !! id
      = Some r.
Proof.
  assert (Hsecond : _handleEnd event2 (_handleEnd event1 w) = _handleEnd event1 w).
  { unfold _handleEnd at 1.
    assert (Hoff : isTouched (this (_handleEnd event1 w)) = false).
    { unfold _handleEnd. by destruct (isTouched (this w)) eqn:Ht. }
    by rewrite Hoff. }
  split; [exact Hsecond|].
  intros id r Htouched Hid Hnot. rewrite Hsecond.
  unfold _handleEnd. rewrite Htouched. cbn.
  rewrite foldl_end_lookup. by rewrite decide_False.
Qed.

(** ** touchstart *)

Lemma start_touch_emitted event w t :
  emitted (start_touch event w t) = emitted w ++ [started event w t].
Proof.
  unfold start_touch. cbn.
  by destruct (touchHistory (this w) !! identifier t).
Qed.

Lemma start_touch_arrays event w t :
  ∃ new, arrays (start_touch event w t) = arrays w ++ new.
Proof.
  unfold start_touch. cbn.
  destruct (touchHistory (this w) !! identifier t).
  - exists []. by rewrite app_nil_r.
  - by eexists.
Qed.

Lemma start_touch_kept event w t id r :
  touchHistory (this w) !! id = Some r →
  touchHistory (this (start_touch event w t)) !! id = Some r.
Proof.
  intros Hid. unfold start_touch. cbn.
  destruct (touchHistory (this w) !! identifier t) as [r'|] eqn:Ht; [done|].
  cbn. rewrite lookup_insert_ne; [done|]. intros Heq. congruence.
Qed.

Lemma start_touch_tracked event w t :
  is_Some (touchHistory (this (start_touch event w t)) !! identifier t).
Proof.
  unfold start_touch. cbn.
  destruct (touchHistory (this w) !! identifier t) as [r'|] eqn:Ht; [eauto|].
  cbn. rewrite lookup_insert_eq. eauto.
Qed.

Lemma start_touch_other event w t id :
  id ≠ identifier t →
  touchHistory (this (start_touch event w t)) !! id
  = touchHistory (this w) !! id.
Proof.
  intros Hne. unfold start_touch. cbn.
  destruct (touchHistory (this w) !! identifier t) as [r'|] eqn:Ht; [done|].
  cbn. by rewrite lookup_insert_ne.
Qed.

Lemma foldl_start_frame event (ts : list touch) w :
  clock (foldl (start_touch event) w ts) = clock w
  ∧ isTouched (this (foldl (start_touch event) w ts)) = isTouched (this w)
  ∧ touchLimit (this (foldl (start_touch event) w ts)) = touchLimit (this w).
Proof.
  revert w. induction ts as [|t ts IH]; intros w; [done|]. cbn.
  destruct (IH (start_touch event w t)) as (-> & -> & ->).
  apply start_touch_frame.
Qed.

Lemma foldl_start_emitted event (ts : list touch) : ∀ w w0,
  clock w = clock w0 →
  emitted (foldl (start_touch event) w ts)
  = emitted w ++ (started event w0 <$> ts).
Proof.
  induction ts as [|t ts IH]; intros w w0 Hc.
  { cbn. by rewrite app_nil_r. }
  cbn [foldl]. destruct (start_touch_frame event w t) as (Hc' & _).
  rewrite (IH _ w0) by congruence.
  rewrite start_touch_emitted, <- app_assoc. cbn. unfold started.
  by rewrite (_timestampTouch_clock t event None w w0 Hc).
Qed.

Lemma foldl_start_arrays event (ts : list touch) : ∀ w,
  ∃ new, arrays (foldl (start_touch event) w ts) = arrays w ++ new.
Proof.
  induction ts as [|t ts IH]; intros w.
  { exists []. cbn. by rewrite app_nil_r. }
  cbn [foldl]. destruct (IH (start_touch event w t)) as [new ->].
  destruct (start_touch_arrays event w t) as [new' ->].
  exists (new' ++ new). by rewrite app_assoc.
Qed.

Lemma foldl_start_kept event (ts : list touch) id r : ∀ w,
  touchHistory (this w) !! id = Some r →
  touchHistory (this (foldl (start_touch event) w ts)) !! id = Some r.
Proof.
  induction ts as [|t ts IH]; intros w Hid; [exact Hid|].
  cbn [foldl]. apply IH. by apply start_touch_kept.
Qed.

Lemma foldl_start_tracked event (ts : list touch) : ∀ w t,
  t ∈ ts →
  is_Some (touchHistory (this (foldl (start_touch event) w ts)) !! identifier t).
Proof.
  induction ts as [|t' ts IH]; intros w t Hin.
  { by apply elem_of_nil in Hin. }
  cbn [foldl]. apply elem_of_cons in Hin as [->|Hin]; [|by apply IH].
  destruct (start_touch_tracked event w t') as [r Hr].
  exists r. by apply foldl_start_kept.
Qed.

Lemma foldl_start_other event (ts : list touch) id : ∀ w,
  id ∉ identifier <$> ts →
  touchHistory (this (foldl (start_touch event) w ts)) !! id
  = touchHistory (this w) !! id.
Proof.
  induction ts as [|t ts IH]; intros w Hnot; [done|].
  cbn [foldl]. rewrite fmap_cons in Hnot.
  apply not_elem_of_cons in Hnot as [Hne Hnot].
  rewrite IH by exact Hnot. by apply start_touch_other.
Qed.

(** X12: a [touchstart] that is not over the limit marks the tracker
    touched and emits one [trackstart] for every changed touch, in order,
    with data that have no history.  Afterwards every changed touch is
    tracked; an identifier that was tracked already keeps the array it
    had (its history is not started again), the arrays in the store are
    kept, and identifiers that are not among the changed touches are as
    they were. *)
Theorem start_tracks_changed_touches event w :
  over_limit event w = false →
  isTouched (this (_handleStart event w)) = true
  ∧ emitted (_handleStart event w)
    = emitted w ++ (started event w <$> changedTouches event)
  ∧ (∀ t, t ∈ changedTouches event →
       is_Some (touchHistory (this (_handleStart event w)) !! identifier t))
  ∧ (∀ id r, touchHistory (this w) !! id = Some r →
       touchHistory (this (_handleStart event w)) !! id = Some r)
  ∧ (∀ id, id ∉ changed_ids event →
       touchHistory (this (_handleStart event w)) !! id
       = touchHistory (this w) !! id)
  ∧ ∃ new, arrays (_handleStart event w) = arrays w ++ new.
Proof.
  intros Hlimit. unfold _handleStart. rewrite Hlimit.
  split.
  { by destruct (foldl_start_frame event (changedTouches event)
                   (set_isTouched true w)) as (_ & -> & _). }
  split.
  { exact (foldl_start_emitted event _ (set_isTouched true w) w eq_refl). }
  split; [intros t Hin; by apply foldl_start_tracked|].
  split.
  { intros id r Hid.
    exact (foldl_start_kept event _ id r (set_isTouched true w) Hid). }
  split.
  { intros id Hnot.
    exact (foldl_start_other event _ id (set_isTouched true w) Hnot). }
  exact (foldl_start_arrays event _ (set_isTouched true w)).
Qed.

(** X13: starting touches that were not tracked and then ending the same
    identifiers brings [touchHistory] back to what it was, and leaves the
    tracker not touched. *)
Theorem start_then_end_restores_history event1 event2 w :
  over_limit event1 w = false →
  (∀ id, id ∈ changed_ids event2 ↔ id ∈ changed_ids event1) →
  (∀ id, id ∈ changed_ids event1 → touchHistory (this w) !! id = None) →
  touchHistory (this (_handleEnd event2 (_handleStart event1 w)))
  = touchHistory (this w)
  ∧ isTouched (this (_handleEnd event2 (_handleStart event1 w))) = false.
Proof.
  intros Hlimit Hsame Hfresh.
  assert (Htouched : isTouched (this (_handleStart event1 w)) = true).
  { unfold _handleStart. rewrite Hlimit.
    by destruct (foldl_start_frame event1 (changedTouches event1)
                   (set_isTouched true w)) as (_ & -> & _). }
  unfold _handleEnd. rewrite Htouched. cbn. split; [|reflexivity].
  apply map_eq. intros id. rewrite foldl_end_lookup.
  fold (changed_ids event2). case_decide as Hin.
  - symmetry. apply Hfresh. by apply Hsame.
  - unfold _handleStart. rewrite Hlimit.
    apply (foldl_start_other event1 _ id (set_isTouched true w)).
    fold (changed_ids event1). intros Hin'. apply Hin. by apply Hsame.
Qed.

Lemma handle_touchLimit (i : input) event w :
  touchLimit (this (handle i event w)) = touchLimit (this w).
Proof.
  destruct i; cbn.
  - unfold _handleStart. destruct (over_limit event w); [done|].
    by destruct (foldl_start_frame event (changedTouches event)
                   (set_isTouched true w)) as (_ & _ & ->).
  - unfold _handleMove. by destruct (foldl_move_frame event (changedTouches event) w)
      as (_ & -> & _).
  - unfold _handleEnd. destruct (isTouched (this w)); [|done]. cbn.
    apply foldl_end_frame.
  - unfold _handleEnd. destruct (isTouched (this w)); [|done]. cbn.
    apply foldl_end_frame.
Qed.

(** X14: a [touchstart] with more touches than [touchLimit] is dropped as a
    whole: nothing is emitted or tracked and the tracker is not marked
    touched.  But no handler assigns [touchLimit], which the constructor
    leaves undefined: whatever events a new tracker has received, no
    [touchstart] is over the limit, however many touches it reports. *)
Theorem touch_limit_is_never_set (steps : list step) event :
  (∀ w k, touchLimit (this w) = Some k →
          k < Z.of_nat (length (touches event)) →
          _handleStart event w = w)
  ∧ touchLimit (this (run steps new_world)) = None
  ∧ over_limit event (run steps new_world) = false
  ∧ isTouched (this (_handleStart event (run steps new_world))) = true.
Proof.
  split.
  { intros w k Hk Hlt. unfold _handleStart, over_limit. rewrite Hk.
    by rewrite (proj2 (Z.ltb_lt _ _) Hlt). }
  assert (Hnone : touchLimit (this (run steps new_world)) = None).
  { unfold run. assert (Hinit : touchLimit (this new_world) = None) by done.
    revert Hinit. generalize new_world.
    induction steps as [|s steps IH]; intros w Hw; [exact Hw|].
    cbn. apply IH. destruct s as [i e|dt]; [|exact Hw].
    cbn. by rewrite handle_touchLimit. }
  split; [exact Hnone|].
  assert (Hlimit : over_limit event (run steps new_world) = false).
  { unfold over_limit. by rewrite Hnone. }
  split; [exact Hlimit|].
  unfold _handleStart. rewrite Hlimit.
  by destruct (foldl_start_frame event (changedTouches event)
                 (set_isTouched true (run steps new_world))) as (_ & -> & _).
Qed.

(** ** Instances on the sample touches *)

Lemma tracked_histories_are_well_formed_witness :
  touchHistory (this (run one_moved new_world)) !! 0 = Some 0%nat
  ∧ (∃ h, arrays (run one_moved new_world) !! 0%nat = Some h
          ∧ history_ok 0 0 h)
  ∧ ∀ id', touchHistory (this (run one_moved new_world)) !! id' = Some 0%nat
           → id' = 0.
Proof.
  split; [reflexivity|].
  apply (tracked_histories_are_well_formed one_moved 0 0). reflexivity.
Defined.

Lemma one_down_wf : wf (run one_down new_world).
Proof. apply (handle_wf touchstart start0 new_world tracker_new_world_wf). Qed.

Lemma move_extends_tracked_histories_witness :
  touchHistory (this (run one_down new_world)) !! 0 = Some 0%nat
  ∧ arrays (_handleMove move0 (run one_down new_world)) !! 0%nat
    = Some ([_timestampTouch finger0 start0 None new_world]
            ++ [_timestampTouch finger0_moved move0 (Some 0%nat) new_world])
  ∧ emitted (_handleMove move0 (run one_down new_world))
    = emitted (run one_down new_world)
      ++ [(trackmove, _timestampTouch finger0_moved move0 (Some 0%nat) new_world)].
Proof.
  split; [reflexivity|].
  destruct (move_extends_tracked_histories move0 (run one_down new_world) 0 0
              [_timestampTouch finger0 start0 None new_world]
              one_down_wf eq_refl eq_refl)
    as (_ & Hem & Harr & _).
  split; [exact Harr|exact Hem].
Defined.

Lemma end_forgets_changed_touches_witness :
  isTouched (this (run one_down new_world)) = true
  ∧ touchHistory (this (_handleEnd end0 (run one_down new_world))) !! 0 = None
  ∧ isTouched (this (_handleEnd end0 (run one_down new_world))) = false.
Proof.
  split; [reflexivity|].
  destruct (end_forgets_changed_touches end0 (run one_down new_world) eq_refl)
    as (Hth & Hoff & _).
  split; [exact (Hth 0)|exact Hoff].
Defined.

Lemma start_tracks_changed_touches_witness :
  over_limit start0 new_world = false
  ∧ isTouched (this (_handleStart start0 new_world)) = true
  ∧ emitted (_handleStart start0 new_world)
    = [(trackstart, _timestampTouch finger0 start0 None new_world)]
  ∧ is_Some (touchHistory (this (_handleStart start0 new_world)) !! 0).
Proof.
  split; [reflexivity|].
  destruct (start_tracks_changed_touches start0 new_world eq_refl)
    as (Hon & Hem & Htracked & _).
  split; [exact Hon|]. split; [exact Hem|].
  apply (Htracked finger0). by left.
Defined.

Lemma start_then_end_restores_history_witness :
  over_limit start0 new_world = false
  ∧ touchHistory (this (_handleEnd end0 (_handleStart start0 new_world)))
    = touchHistory (this new_world)
  ∧ isTouched (this (_handleEnd end0 (_handleStart start0 new_world))) = false.
Proof.
  split; [reflexivity|].
  apply (start_then_end_restores_history start0 end0 new_world eq_refl).
  - intros id. reflexivity.
  - intros id _. apply lookup_empty.
Defined.

End TouchTrackerFacts.

(** * Properties of the mesh behavior *)

Module MeshBehaviorFacts.
Import MeshBehavior.

Lemma property_assign_eq name (newComponent : option component) el :
  property (assign name newComponent el) name
  = match newComponent with
    | Some c => Component c
    | None => Falsy
    end.
Proof. unfold property, assign. cbn. by rewrite lookup_insert_eq. Qed.

Lemma property_assign_ne name other (newComponent : option component) el :
  other ≠ name →
  property (assign name newComponent el) other = property el other.
Proof.
  intros Hne. unfold property, assign. cbn.
  by rewrite lookup_insert_ne by congruence.
Qed.

(** X15: connecting a behavior whose [createComponent] returns [c], on an
    element whose property under the behavior's type holds a component or
    a falsy value, and then disconnecting it leaves under that type the
    default component: a box of the calculated size for "geometry", the
    material of colour 0xff6600 for "material", and [undefined] for any
    other type.  The component found at connection, if any, and then [c]
    have each been disposed once, in that order; the other properties are
    untouched and two renderings have been requested.  When the property
    holds a truthy value that is no component, a member of
    [Object.prototype] for instance, connecting throws. *)
Theorem connect_then_disconnect_installs_default (b : behavior)
    (el : element) (c : component) :
  createComponent b el = Some c →
  match property el (type b) with
  | Truthy _ | Inherited _ => connectedCallback b el = None
  | found =>
      ∃ el1 el2,
        connectedCallback b el = Some el1
        ∧ property el1 (type b) = Component c
        ∧ disconnectedCallback b el1 = Some el2
        ∧ property el2 (type b)
          = (if decide (type b = "geometry") then
               Component (BoxGeometry (size_x (calculatedSize el))
                            (size_y (calculatedSize el))
                            (size_z (calculatedSize el)))
             else if decide (type b = "material") then
               Component (MeshPhongMaterial 16737792)
             else Falsy)
        ∧ disposed el2 = disposed el ++ disposable found ++ [c]
        ∧ renders el2 = S (S (renders el))
        ∧ ∀ name, name ≠ type b → property el2 name = property el name
  end.
Proof.
  intros Hc. unfold connectedCallback. rewrite Hc. cbn.
  unfold disconnectedCallback, setDefaultComponent.
  assert (Hdefault : ∀ el0 : element,
            calculatedSize el0 = calculatedSize el →
            match makeDefaultComponent el0 (type b) with
            | Some d => Component d
            | None => Falsy
            end
            = (if decide (type b = "geometry") then
                 Component (BoxGeometry (size_x (calculatedSize el))
                              (size_y (calculatedSize el))
                              (size_z (calculatedSize el)))
               else if decide (type b = "material") then
                 Component (MeshPhongMaterial 16737792)
               else Falsy)).
  { intros el0 Hsize. unfold makeDefaultComponent. rewrite Hsize.
    by repeat case_decide. }
  destruct (property el (type b)) as [old| | |] eqn:Hold;
    unfold setMeshComponent at 1; rewrite Hold; cbn;
    [| reflexivity | reflexivity |].
  - eexists. eexists. split; [reflexivity|].
    split; [apply property_assign_eq|].
    unfold setMeshComponent.
    change (property (_needsToBeRendered ?e) ?n) with (property e n).
    rewrite property_assign_eq. cbn.
    split; [reflexivity|].
    change (property (_needsToBeRendered ?e) ?n) with (property e n).
    rewrite property_assign_eq.
    split; [by apply Hdefault|].
    split; [cbn; by rewrite <- app_assoc|]. split; [reflexivity|].
    intros name Hne. unfold property. cbn.
    by rewrite !lookup_insert_ne by congruence.
  - eexists. eexists. split; [reflexivity|].
    split; [apply property_assign_eq|].
    unfold setMeshComponent.
    change (property (_needsToBeRendered ?e) ?n) with (property e n).
    rewrite property_assign_eq. cbn.
    split; [reflexivity|].
    change (property (_needsToBeRendered ?e) ?n) with (property e n).
    rewrite property_assign_eq.
    split; [by apply Hdefault|].
    split; [reflexivity|]. split; [reflexivity|].
    intros name Hne. unfold property. cbn.
    by rewrite !lookup_insert_ne by congruence.
Qed.

Lemma connect_then_disconnect_installs_default_witness :
  createComponent geometry_behavior bare_element = Some (Created 1)
  ∧ property bare_element "geometry" = Falsy
  ∧ (∃ el1 el2,
       connectedCallback geometry_behavior bare_element = Some el1
       ∧ property el1 "geometry" = Component (Created 1)
       ∧ disconnectedCallback geometry_behavior el1 = Some el2
       ∧ property el2 "geometry" = Component (BoxGeometry 1 2 3)
       ∧ disposed el2 = [Created 1])
  ∧ property bare_element "toString" = Inherited "toString"
  ∧ connectedCallback toString_behavior bare_element = None.
Proof.
  split; [reflexivity|]. split; [reflexivity|].
  split.
  - destruct (connect_then_disconnect_installs_default geometry_behavior
                bare_element (Created 1) eq_refl)
      as (el1 & el2 & Hcon & Hc & Hdis & Hdef & Hdisp & _).
    exists el1, el2. repeat split; assumption.
  - split; [reflexivity|].
    exact (connect_then_disconnect_installs_default toString_behavior
             bare_element (Created 1) eq_refl).
Defined.

End MeshBehaviorFacts.
